(** * The SEC 10-K conversion pipeline of [convert_10ks_to_mds.py]

    A shallow embedding of
    [examples/end-to-end-examples/sec_10k_qa/convert_10ks_to_mds.py]:
    command-line validation ([parse_args]), the batch flattener
    ([generate_samples]), the identifier resolver ([joined_identifier]),
    the sharded fetcher ([DownloadingIterable]) and the token packer the
    script drives ([ConcatTokensDataset]).

    Python values are modelled as follows: [str] is [string], [list] is
    [list], [int] is [Z] (lengths and indices that Python keeps
    non-negative are [nat]), [None]-able values are [option], a raised
    exception is the [Raise] branch of [result], and a generator is the
    list of values it yields together with the way it stopped. *)

From Stdlib Require Import ZArith Lia.
From stdpp Require Import base tactics option list gmap strings.


(** ** Exceptions and the error monad *)

Inductive exn : Type :=
  | ValueError (msg : string)
  | AttributeError (attr : string)
  | IndexError (msg : string)
  | FileNotFoundError (path : string)
  | SystemExit (code : Z) (msg : string).

Inductive result (A : Type) : Type :=
  | Ok (a : A)
  | Raise (e : exn).
Arguments Ok {A} a.
Arguments Raise {A} e.

#[global] Instance result_ret : MRet result := λ A a, Ok a.
#[global] Instance result_bind : MBind result := λ A B f m,
  match m with
  | Ok a => f a
  | Raise e => Raise e
  end.
#[global] Instance result_fmap : FMap result := λ A B f m,
  match m with
  | Ok a => Ok (f a)
  | Raise e => Raise e
  end.

Definition is_ok {A} (r : result A) : bool :=
  match r with Ok _ => true | Raise _ => false end.

(** [for x in l: ...] over a body that may raise: the results in order, or
    the first exception. *)
Fixpoint traverse {A B} (f : A → result B) (l : list A) : result (list B) :=
  match l with
  | [] => Ok []
  | x :: t => y ← f x; ys ← traverse f t; Ok (y :: ys)
  end.

(** A generator run to exhaustion: what it yielded, and whether it ended
    by returning ([None]) or by an exception escaping it. *)
Record run (Y : Type) : Type := Run {
  yielded : list Y;
  raised : option exn
}.
Arguments Run {Y} yielded raised.
Arguments yielded {Y} r.
Arguments raised {Y} r.

Definition yield_then {Y} (y : Y) (r : run Y) : run Y :=
  Run (y :: yielded r) (raised r).

(** ** Python built-ins used by the script *)

Module Py.

(** [l[start::step]] for [start >= 0] and a positive step: the elements
    at positions [start], [start + step], ...  [skip] counts the
    elements still to be passed over before the next one is taken. *)
Fixpoint stride {A} (skip step : nat) (l : list A) : list A :=
  match l with
  | [] => []
  | x :: t =>
      match skip with
      | O => x :: stride (pred step) step t
      | S k => stride k step t
      end
  end.

(** A zero step is refused by Python. *)
Definition slice_from_step {A} (start step : nat) (l : list A)
  : result (list A) :=
  match step with
  | O => Raise (ValueError "slice step cannot be zero")
  | S _ => Ok (stride start step l)
  end.

(** [s.startswith(p)] *)
Fixpoint startswith (p s : string) : bool :=
  match p, s with
  | EmptyString, _ => true
  | String _ _, EmptyString => false
  | String a p', String b s' => Ascii.eqb a b && startswith p' s'
  end.

(** [s.endswith(suf)]: some suffix of [s] is [suf]. *)
Fixpoint endswith (suf s : string) : bool :=
  String.eqb suf s
  || match s with
     | EmptyString => false
     | String _ s' => endswith suf s'
     end.

(** [sub in s] *)
Fixpoint contains (sub s : string) : bool :=
  startswith sub s
  || match s with
     | EmptyString => false
     | String _ s' => contains sub s'
     end.

(** [s.split(sep)] for a non-empty [sep], scanning left to right: at
    each position where [sep] starts the current part ends, the
    separator is passed over ([skip] characters of it remain), and the
    next part begins behind it.  The head of the result is the part
    being read. *)
Fixpoint split_from (sep s : string) (skip : nat) : list string :=
  match s with
  | EmptyString => [EmptyString]
  | String c s' =>
      match skip with
      | S k => split_from sep s' k
      | O =>
          if startswith sep s
          then EmptyString :: split_from sep s' (pred (String.length sep))
          else match split_from sep s' 0 with
               | p :: ps => String c p :: ps
               | [] => [String c EmptyString]
               end
      end
  end.

(** The separators of this script are the literals ['|||'] and ['-'];
    Python refuses an empty one with a [ValueError]. *)
Definition split (sep s : string) : list string := split_from sep s 0.

(** One step of [posixpath.join]: an absolute component replaces what
    came before, otherwise it is appended, with a ['/'] unless the path
    so far is empty or already ends in one. *)
Definition join2 (path b : string) : string :=
  if startswith "/" b then b
  else if String.eqb path "" || endswith "/" path then path +:+ b
  else path +:+ "/" +:+ b.

(** [os.path.join(a, *p)] *)
Definition path_join (a : string) (p : list string) : string :=
  foldl join2 a p.

End Py.

(** ** parse_args *)

(** The options as they stand on the command line, after argparse's
    [type=] conversion: [None] is an option that was not given. *)
Record cmdline : Type := Cmdline {
  cl_max_workers : option Z;
  cl_remote : option string;
  cl_out_root : option string;
  cl_in_root : option string;
  cl_dataset_subset : option string;
  cl_compression : option string;
  cl_concat_tokens : option Z;
  cl_tokenizer : option string;
  cl_bos_text : option string;
  cl_eos_text : option string;
  cl_no_wrap : bool
}.

(** The [Namespace] that [parser.parse_args()] returns.  It has one
    attribute per [add_argument] call and no other. *)
Record Namespace : Type := MkNamespace {
  max_workers : Z;
  remote : option string;
  out_root : string;
  in_root : string;
  dataset_subset : string;
  compression : string;
  concat_tokens : option Z;
  tokenizer : option string;
  bos_text : option string;
  eos_text : option string;
  no_wrap : bool
}.

(** [parser.parse_args()]: defaults filled in; a missing required option
    ends the process with status 2. *)
Definition argparse (cl : cmdline) : result Namespace :=
  match cl_out_root cl, cl_in_root cl with
  | Some o, Some i =>
      Ok {| max_workers := default 64%Z (cl_max_workers cl);
            remote := cl_remote cl;
            out_root := o;
            in_root := i;
            dataset_subset := default "small_full" (cl_dataset_subset cl);
            compression := default "zstd" (cl_compression cl);
            concat_tokens := cl_concat_tokens cl;
            tokenizer := cl_tokenizer cl;
            bos_text := cl_bos_text cl;
            eos_text := cl_eos_text cl;
            no_wrap := cl_no_wrap cl |}
  | _, _ => Raise (SystemExit 2 "the following arguments are required")
  end.

(** The directories that exist, each with its entries; what
    [os.path.isdir] and [os.listdir] see. *)
Definition isdir (tree : gmap string (list string)) (p : string) : bool :=
  bool_decide (is_Some (tree !! p)).

Definition listdir (tree : gmap string (list string)) (p : string)
  : result (list string) :=
  match tree !! p with
  | Some entries => Ok entries
  | None => Raise (FileNotFoundError p)
  end.

(** [parsed.splits]: the parser declares no [--splits] option, so the
    namespace has no such attribute. *)
Definition parsed_splits (parsed : Namespace) : result (list string) :=
  Raise (AttributeError "splits").

(** The first check of [parse_args]; [and] evaluates its right operand
    only when [out_root] is a directory. *)
Definition check_out_root (tree : gmap string (list string))
    (parsed : Namespace) : result unit :=
  if isdir tree (out_root parsed) then
    entries ← listdir tree (out_root parsed);
    splits ← parsed_splits parsed;
    if bool_decide
         (0 < size ((list_to_set entries : gset string) ∩ list_to_set splits))
    then Raise (ValueError "--out_root cannot overlap with the requested splits")
    else Ok ()
  else Ok ().

(** The second check; [isinstance(parsed.concat_tokens, int)] holds of
    every value that [type=int] lets through. *)
Definition check_concat_options (parsed : Namespace) : result unit :=
  match concat_tokens parsed, tokenizer parsed with
  | Some _, None =>
      Raise (SystemExit 2
               "When setting --concat_tokens, you must specify a --tokenizer")
  | _, _ => Ok ()
  end.

Definition set_bos_text (v : string) (p : Namespace) : Namespace :=
  {| max_workers := max_workers p; remote := remote p;
     out_root := out_root p; in_root := in_root p;
     dataset_subset := dataset_subset p; compression := compression p;
     concat_tokens := concat_tokens p; tokenizer := tokenizer p;
     bos_text := Some v; eos_text := eos_text p; no_wrap := no_wrap p |}.

Definition set_eos_text (v : string) (p : Namespace) : Namespace :=
  {| max_workers := max_workers p; remote := remote p;
     out_root := out_root p; in_root := in_root p;
     dataset_subset := dataset_subset p; compression := compression p;
     concat_tokens := concat_tokens p; tokenizer := tokenizer p;
     bos_text := bos_text p; eos_text := Some v; no_wrap := no_wrap p |}.

Definition parse_args (tree : gmap string (list string)) (cl : cmdline)
  : result Namespace :=
  parsed ← argparse cl;
  _ ← check_out_root tree parsed;
  _ ← check_concat_options parsed;
  let parsed :=
    match bos_text parsed with
    | None => set_bos_text "" parsed
    | Some _ => parsed
    end in
  let parsed :=
    match eos_text parsed with
    | None => set_eos_text "" parsed
    | Some _ => parsed
    end in
  Ok parsed.

(** The splits that [main] walks through. *)
Definition main_splits : list string := ["validation"; "test"; "train"].

(** ** generate_samples *)

(** A batch [{key: [sample0, sample1, ...]}] and a sample [{key: value}],
    as the ordered dictionaries they are. *)
Definition batch (V : Type) : Type := list (string * list V).
Definition sample (V : Type) : Type := list (string * V).

(** [{k: v[idx] for k, v in batch.items()}] *)
Definition sample_at {V} (b : batch V) (idx : nat) : result (sample V) :=
  traverse (λ kv : string * list V,
              match kv.2 !! idx with
              | Some x => Ok (kv.1, x)
              | None => Raise (IndexError "list index out of range")
              end) b.

(** How the [for idx in range(current_bs)] loop is left. *)
Inductive loop_exit : Type :=
  | Exhausted (n_samples : Z)
  | Returned
  | Failed (e : exn).

Fixpoint batch_samples {V} (truncate_num_samples : option Z) (b : batch V)
    (idxs : list nat) (n_samples : Z) : list (sample V) * loop_exit :=
  match idxs with
  | [] => ([], Exhausted n_samples)
  | idx :: idxs' =>
      if match truncate_num_samples with
         | Some k => bool_decide (n_samples = k)
         | None => false
         end
      then ([], Returned)
      else
        match sample_at b idx with
        | Raise e => ([], Failed e)
        | Ok smp =>
            let '(ys, ex) :=
              batch_samples truncate_num_samples b idxs' (n_samples + 1) in
            (smp :: ys, ex)
        end
  end.

Fixpoint generate_samples_from {V} (loader : list (batch V))
    (truncate_num_samples : option Z) (n_samples : Z) : run (sample V) :=
  match loader with
  | [] => Run [] None
  | b :: loader' =>
      match b with
      | [] => Run [] (Some (IndexError "list index out of range"))
      | (_, column0) :: _ =>
          let current_bs := length column0 in
          match batch_samples truncate_num_samples b (seq 0 current_bs)
                  n_samples with
          | (ys, Exhausted n) =>
              let r := generate_samples_from loader' truncate_num_samples n in
              Run (ys ++ yielded r) (raised r)
          | (ys, Returned) => Run ys None
          | (ys, Failed e) => Run ys (Some e)
          end
      end
  end.

Definition generate_samples {V} (loader : list (batch V))
    (truncate_num_samples : option Z) : run (sample V) :=
  generate_samples_from loader truncate_num_samples 0.

(** ** DownloadingIterable *)

(** What [torch.utils.data.get_worker_info()] returns inside a worker. *)
Record worker_info : Type := WorkerInfo {
  id : nat;
  num_workers : nat
}.

(** The local staging area: the directories created and the files
    written, by path. *)
Record staging : Type := Staging {
  dirs : gset string;
  files : gmap string string
}.

(** [os.makedirs(p, exist_ok=True)] *)
Definition makedirs (p : string) (fs : staging) : staging :=
  Staging ({[p]} ∪ dirs fs) (files fs).

(** [object_store.download_object(name, filename)] on a store holding the
    objects of the map: the object's content lands in the local file. *)
Definition download_object (store : gmap string string)
    (object_name filename : string) (fs : staging) : result staging :=
  match store !! object_name with
  | Some content => Ok (Staging (dirs fs) (<[filename := content]> (files fs)))
  | None => Raise (FileNotFoundError object_name)
  end.

(** [open(p).read()] *)
Definition read_file (p : string) (fs : staging) : result string :=
  match files fs !! p with
  | Some txt => Ok txt
  | None => Raise (FileNotFoundError p)
  end.

Module DownloadingIterable.

Record t : Type := Make {
  identifiers : list (list string);
  object_store : gmap string string;
  input_folder_prefix : string;
  output_folder : string
}.

Definition __init__ (identifiers : list string)
    (input_folder_prefix output_folder : string)
    (object_store : gmap string string) : t :=
  {| identifiers := map (Py.split "|||") identifiers;
     object_store := object_store;
     input_folder_prefix := input_folder_prefix;
     output_folder := output_folder |}.

(** The first lines of [__iter__]: this worker's share. *)
Definition identifiers_shard {A} (info : option worker_info)
    (identifiers : list A) : result (list A) :=
  let worker_id := match info with Some wi => id wi | None => 0 end in
  let n := match info with Some wi => num_workers wi | None => 1 end in
  Py.slice_from_step worker_id n identifiers.

(** [report_date.split('-')[0]] *)
Definition year_of (report_date : string) : result string :=
  match Py.split "-" report_date with
  | y :: _ => Ok y
  | [] => Raise (IndexError "list index out of range")
  end.

Definition remote_name (prefix ticker year : string) : string :=
  Py.path_join prefix [ticker; "sec_" +:+ year +:+ "_txt.txt"].

Definition local_name (folder ticker year : string) : string :=
  Py.path_join folder [ticker; "sec_" +:+ year +:+ ".txt"].

(** The body of the loop for one identifier: the staging area afterwards
    and the record yielded.  An identifier that is not a triple fails
    the unpacking of [(_, ticker, report_date)]. *)
Definition fetch (self : t) (identifier : list string) (fs : staging)
  : result (staging * sample string) :=
  match identifier with
  | [_; ticker; report_date] =>
      let fs := makedirs (Py.path_join (output_folder self) [ticker]) fs in
      year ← year_of report_date;
      fs ← download_object (object_store self)
             (remote_name (input_folder_prefix self) ticker year)
             (local_name (output_folder self) ticker year) fs;
      txt ← read_file (local_name (output_folder self) ticker year) fs;
      Ok (fs, [("text", txt)])
  | _ => Raise (ValueError "wrong number of values to unpack (expected 3)")
  end.

Fixpoint fetch_all (self : t) (shard : list (list string)) (fs : staging)
  : run (sample string) * staging :=
  match shard with
  | [] => (Run [] None, fs)
  | identifier :: shard' =>
      match fetch self identifier fs with
      | Raise e => (Run [] (Some e), fs)
      | Ok (fs', rec) =>
          let '(r, fs'') := fetch_all self shard' fs' in
          (yield_then rec r, fs'')
      end
  end.

Definition __iter__ (self : t) (info : option worker_info) (fs : staging)
  : run (sample string) * staging :=
  match identifiers_shard info (identifiers self) with
  | Raise e => (Run [] (Some e), fs)
  | Ok shard => fetch_all self shard fs
  end.

End DownloadingIterable.

(** ** main: resolving the identifiers of a split *)

(** A row of the dataset: the three columns the script reads, and the
    column that [joined_identifier] adds. *)
Record example : Type := Example {
  docID : string;
  tickers : list string;
  reportDate : string;
  joined : option string
}.

Definition join3 (doc ticker date : string) : string :=
  doc +:+ "|||" +:+ ticker +:+ "|||" +:+ date.

(** [example['tickers'][0]] raises on an empty list. *)
Definition joined_identifier (ex : example) : result example :=
  match tickers ex with
  | [] => Raise (IndexError "list index out of range")
  | ticker :: _ =>
      Ok {| docID := docID ex; tickers := tickers ex;
            reportDate := reportDate ex;
            joined := Some (join3 (docID ex) ticker (reportDate ex)) |}
  end.

(** [Dataset.map(f)]: [f] on every row; an exception in [f] ends the
    call. *)
Definition dataset_map (f : example → result example) (data : list example)
  : result (list example) :=
  traverse f data.

(** [Dataset.unique(column)]: the distinct values, each at its first
    occurrence. *)
Fixpoint unique_from (seen : gset string) (values : list string)
  : list string :=
  match values with
  | [] => []
  | v :: values' =>
      if decide (v ∈ seen) then unique_from seen values'
      else v :: unique_from ({[v]} ∪ seen) values'
  end.

Definition dataset_unique (data : list example) : list string :=
  unique_from ∅ (omap joined data).

(** The two dataset calls of [main] that produce [unique_identifiers]. *)
Definition unique_identifiers (data : list example) : result (list string) :=
  data' ← dataset_map joined_identifier data;
  Ok (dataset_unique data').

(** The iterable that [main] builds for a split. *)
Definition downloading_iter (folder_prefix tmp_dir split : string)
    (unique_identifiers : list string) (object_store : gmap string string)
  : DownloadingIterable.t :=
  DownloadingIterable.__init__ unique_identifiers
    (Py.path_join folder_prefix [split])
    (Py.path_join tmp_dir [split])
    object_store.

(** ** ConcatTokensDataset *)

Module ConcatTokensDataset.
Section Packer.

(** The tokenizer is a collaborator: text in, token ids out.  A raw
    document record [{text: ...}] is represented by its text. *)
Variable tokenize : string → list Z.

(** Modelled from the spec: [ConcatTokensDataset] is imported from
    [llmfoundry.data] and its body is not among the sources.  Boundary
    text is "empty by default, meaning no tokens inserted". *)
Definition boundary_tokens (text : string) : list Z :=
  if String.eqb text "" then [] else tokenize text.

(** Modelled from the spec: the per-document token sequence of the
    absent [ConcatTokensDataset], "[bos_tokens?] + tokenized_text +
    [eos_tokens?]". *)
Definition document_tokens (bos_text eos_text text : string) : list Z :=
  boundary_tokens bos_text ++ tokenize text ++ boundary_tokens eos_text.

(** Modelled from the spec: the emission loop of the absent
    [ConcatTokensDataset], "whenever the buffer length >= block size N,
    emit a block consisting of the first N tokens and remove those N
    tokens from the front of the buffer, repeating until buffer length
    < N".  The result is the blocks emitted and the buffer left; [None]
    is a loop still running when the fuel is spent. *)
Fixpoint emit (fuel N : nat) (buffer : list Z)
  : option (list (list Z) * list Z) :=
  if decide (N ≤ length buffer) then
    match fuel with
    | O => None
    | S fuel' =>
        '(blocks, rest) ← emit fuel' N (drop N buffer);
        Some (take N buffer :: blocks, rest)
    end
  else Some ([], buffer).

(** Modelled from the spec: wrap mode of the absent
    [ConcatTokensDataset], "maintain a single running accumulation
    buffer across documents; append each document's full token sequence
    to the buffer", emit, and at the end of the stream drop what is
    left.  The second component is that final remainder. *)
Fixpoint wrap_from (N : nat) (bos_text eos_text : string)
    (docs : list string) (buffer : list Z)
  : option (list (list Z) * list Z) :=
  match docs with
  | [] => Some ([], buffer)
  | doc :: docs' =>
      let buffer := buffer ++ document_tokens bos_text eos_text doc in
      '(blocks, rest) ← emit (length buffer) N buffer;
      '(blocks', final) ← wrap_from N bos_text eos_text docs' rest;
      Some (blocks ++ blocks', final)
  end.

(** Modelled from the spec: what the absent [ConcatTokensDataset]
    yields in wrap mode, the remainder at the end of the stream being
    "never emitted (dropped)". *)
Definition wrap (N : nat) (bos_text eos_text : string)
    (docs : list string) : option (list (list Z)) :=
  fst <$> wrap_from N bos_text eos_text docs [].

End Packer.
End ConcatTokensDataset.

(** A tokenizer to run the packer on: one token per character. *)
Fixpoint char_tokenize (s : string) : list Z :=
  match s with
  | EmptyString => []
  | String c s' => Z.of_nat (Ascii.nat_of_ascii c) :: char_tokenize s'
  end.

(** ** Notions used in the statements *)

(** No occurrence of [sep] in [a +:+ rest] starts inside [a]. *)
Fixpoint unmatched (sep a rest : string) : bool :=
  match a with
  | EmptyString => true
  | String c a' =>
      negb (Py.startswith sep (a +:+ rest)) && unmatched sep a' rest
  end.

(** The number of samples of a batch, read off its first column as the
    generator does, and the batches whose columns all have that length. *)
Definition batch_size {V} (b : batch V) : nat :=
  match b with
  | [] => 0
  | (_, column0) :: _ => length column0
  end.

Definition well_formed {V} (b : batch V) : Prop :=
  b ≠ [] ∧ Forall (λ kv, length kv.2 = batch_size b) b.

(** The sample at index [idx] of a batch: the batch's keys, in order,
    each with its column's entry at [idx]. *)
Definition row {V} (b : batch V) (idx : nat) : sample V :=
  omap (λ kv, (λ x, (kv.1, x)) <$> kv.2 !! idx) b.

(** All the samples of a loader: batch after batch, index after index. *)
Definition rows {V} (b : batch V) : list (sample V) :=
  map (row b) (seq 0 (batch_size b)).

Definition all_rows {V} (loader : list (batch V)) : list (sample V) :=
  concat (map rows loader).

(** The identifier of a row, when it has a first ticker. *)
Definition identifier_of (ex : example) : option string :=
  match tickers ex with
  | [] => None
  | ticker :: _ => Some (join3 (docID ex) ticker (reportDate ex))
  end.

(** ** Inputs of the examples *)

(** A command line with the two required options and nothing else. *)
Definition minimal_cmdline : cmdline :=
  {| cl_max_workers := None; cl_remote := None;
     cl_out_root := Some "out"; cl_in_root := Some "s3://bucket/data";
     cl_dataset_subset := None; cl_compression := None;
     cl_concat_tokens := None; cl_tokenizer := None;
     cl_bos_text := None; cl_eos_text := None; cl_no_wrap := false |}.

(** The same with a block size, an end-of-text marker and the tokenizer
    option as given. *)
Definition concat_cmdline (tok : option string) : cmdline :=
  {| cl_max_workers := None; cl_remote := None;
     cl_out_root := Some "out"; cl_in_root := Some "s3://bucket/data";
     cl_dataset_subset := None; cl_compression := None;
     cl_concat_tokens := Some 2048%Z; cl_tokenizer := tok;
     cl_bos_text := None; cl_eos_text := Some "<|endoftext|>";
     cl_no_wrap := false |}.

(** ** Notions used in the further properties *)

(** A batch with a column, none of them shorter than the first. *)
Definition covering {V} (b : batch V) : Prop :=
  b ≠ [] ∧ Forall (λ kv, batch_size b ≤ length kv.2) b.

(** A run with more yields in front. *)
Definition yield_first {Y} (ys : list Y) (r : run Y) : run Y :=
  Run (ys ++ yielded r) (raised r).

(** The object that the fetcher reads for an identifier: none for an
    identifier that is not a triple or whose object is not in the store. *)
Definition object_of (self : DownloadingIterable.t)
    (identifier : list string) : option string :=
  match identifier with
  | [_; ticker; report_date] =>
      match DownloadingIterable.year_of report_date with
      | Ok year =>
          DownloadingIterable.object_store self
          !! DownloadingIterable.remote_name
               (DownloadingIterable.input_folder_prefix self) ticker year
      | Raise _ => None
      end
  | _ => None
  end.

(** The record yielded for a text. *)
Definition text_record (txt : string) : sample string := [("text", txt)].

(** [sep.join(parts)] *)
Fixpoint join_with (sep : string) (parts : list string) : string :=
  match parts with
  | [] => ""
  | p :: ps =>
      match ps with
      | [] => p
      | _ :: _ => p +:+ sep +:+ join_with sep ps
      end
  end.

(** ** MPTFTModelHandler: parsing the requests of a batch *)

Module MPTFTModelHandler.

(** What a handler method returns, or the [RuntimeError] it raises. *)
Inductive outcome (A : Type) : Type :=
  | Done (a : A)
  | RuntimeError (msg : string).
Arguments Done {A} a.
Arguments RuntimeError {A} msg.

(** The double quote of the first error message. *)
Definition quote : Ascii.ascii :=
  Ascii.Ascii false true false false false true false false.

Definition INPUT_KEY : string := "input".
Definition PARAMETERS_KEY : string := "parameters".

(** The keys of [DEFAULT_GENERATE_KWARGS], in the order of the source. *)
Definition DEFAULT_KEYS : list string :=
  ["output_len"; "beam_width"; "top_k"; "top_p"; "temperature";
   "repetition_penalty"; "presence_penalty"; "beam_search_diversity_rate";
   "len_penalty"; "bad_words_list"; "min_length"; "random_seed"].

Section Requests.

(** The values of generation arguments (numbers, booleans, [None], ...)
    are kept abstract: [default_of] gives the value that the source
    writes under each default key, [ne] is Python's [!=] on them. *)
Context {V : Type}.
Variable default_of : string → V.
Variable ne : V → V → bool.

Definition DEFAULT_GENERATE_KWARGS : list (string * V) :=
  map (λ k, (k, default_of k)) DEFAULT_KEYS.

(** [d.get(k)] and [d[k] = v] on a dictionary kept in insertion order:
    an assignment to a key already there keeps its place. *)
Fixpoint dict_get (k : string) (d : list (string * V)) : option V :=
  match d with
  | [] => None
  | (k', v') :: d' => if decide (k = k') then Some v' else dict_get k d'
  end.

Fixpoint dict_set (k : string) (v : V) (d : list (string * V))
  : list (string * V) :=
  match d with
  | [] => [(k, v)]
  | (k', v') :: d' =>
      if decide (k = k') then (k, v) :: d' else (k', v') :: dict_set k v d'
  end.

(** A request: the entry under ['input'] and the dictionary under
    ['parameters'], each of which may be missing; other entries are not
    read. *)
Record model_request : Type := Request {
  input : option string;
  parameters : option (list (string * V))
}.

Definition _parse_model_request (model_request : model_request)
  : outcome (string * list (string * V)) :=
  match input model_request with
  | None =>
      RuntimeError
        (String quote (INPUT_KEY +:+ String quote
                         " must be provided to generate call"))
  | Some generate_input =>
      let generate_kwargs :=
        foldl (λ kwargs kv, dict_set kv.1 kv.2 kwargs)
          DEFAULT_GENERATE_KWARGS
          (default [] (parameters model_request)) in
      Done (generate_input, generate_kwargs)
  end.

(** The inner loop of [_parse_model_requests]: the arguments of one
    request merged into those gathered so far. *)
Fixpoint merge_kwargs (generate_kwarg generate_kwargs : list (string * V))
  : outcome (list (string * V)) :=
  match generate_kwarg with
  | [] => Done generate_kwargs
  | (k, v) :: rest =>
      if match dict_get k generate_kwargs with
         | Some v0 => ne v0 v
         | None => false
         end
      then RuntimeError ("Request has conflicting values for kwarg " +:+ k)
      else merge_kwargs rest (dict_set k v generate_kwargs)
  end.

Fixpoint parse_requests_from (model_requests : list model_request)
    (generate_inputs : list string) (generate_kwargs : list (string * V))
  : outcome (list string * list (string * V)) :=
  match model_requests with
  | [] => Done (generate_inputs, generate_kwargs)
  | req :: model_requests' =>
      match _parse_model_request req with
      | RuntimeError msg => RuntimeError msg
      | Done (generate_input, generate_kwarg) =>
          match merge_kwargs generate_kwarg generate_kwargs with
          | RuntimeError msg => RuntimeError msg
          | Done generate_kwargs' =>
              parse_requests_from model_requests'
                (generate_inputs ++ [generate_input]) generate_kwargs'
          end
      end
  end.

Definition _parse_model_requests (model_requests : list model_request)
  : outcome (list string * list (string * V)) :=
  parse_requests_from model_requests [] [].

End Requests.

End MPTFTModelHandler.

(** The entries of a dictionary assigned, in turn, into another. *)
Definition set_all {V} (acc kw : list (string * V)) : list (string * V) :=
  foldl (λ kwargs kv, MPTFTModelHandler.dict_set kv.1 kv.2 kwargs) acc kw.

(** Two dictionaries that hold no key under values that differ by
    [ne]. *)
Definition agree {V} (ne : V → V → bool) (acc kw : list (string * V))
  : Prop :=
  ∀ k v0 v,
    MPTFTModelHandler.dict_get k acc = Some v0 →
    MPTFTModelHandler.dict_get k kw = Some v →
    ne v0 v = false.

(** ** Inputs of the further examples *)

(** Three filings, two of them of one document. *)
Definition demo_filings : list example :=
  [Example "d1" ["AAPL"; "APC"] "2020-10-30" None;
   Example "d2" ["MSFT"] "2021-07-29" None;
   Example "d1" ["AAPL"] "2020-10-30" None].

(** A store with the reports of two companies and the iterable of the
    train split over three identifiers. *)
Definition demo_store : gmap string string :=
  {[ "data/train/AAPL/sec_2020_txt.txt" := "apple 2020";
     "data/train/MSFT/sec_2021_txt.txt" := "microsoft 2021";
     "data/train/AAPL/sec_2019_txt.txt" := "apple 2019" ]}.

Definition demo_iterable : DownloadingIterable.t :=
  downloading_iter "data" "/tmp/tmpx" "train"
    ["d1|||AAPL|||2020-10-30"; "d2|||MSFT|||2021-07-29";
     "d3|||AAPL|||2019-01-01"]
    demo_store.

(** Integer-valued generation arguments, all defaults 0, compared as
    integers. *)
Definition demo_default_of (k : string) : Z := 0.
Definition demo_ne (a b : Z) : bool := negb (Z.eqb a b).

(** * Properties *)

Section Shards.
Context {A : Type}.
Implicit Types (l : list A) (w W : nat).

Lemma stride_lookup l : ∀ w n j,
  Py.stride w (S n) l !! j = l !! (w + j * S n).
Proof.
  induction l as [|x t IH]; intros w n j; simpl.
  - by rewrite !lookup_nil.
  - destruct w as [|k]; simpl.
    + destruct j as [|j']; simpl; [done|].
      rewrite IH. f_equal.
    + apply IH.
Qed.

Lemma stride_nil_ge l : ∀ w W, length l ≤ w → Py.stride w W l = [].
Proof.
  induction l as [|x t IH]; intros w W Hw; simpl in *; [done|].
  destruct w; [lia|]. apply IH. lia.
Qed.

(** All the shards of [x :: t] are those of [t], rotated by one worker,
    with [x] in front of worker 0's. *)
Lemma shards_cons (x : A) (t : list A) n :
  concat (map (λ w, Py.stride w (S n) (x :: t)) (seq 0 (S n)))
  ≡ₚ x :: concat (map (λ w, Py.stride w (S n) t) (seq 0 (S n))).
Proof.
  transitivity
    (x :: Py.stride n (S n) t
       ++ concat (map (λ w, Py.stride w (S n) t) (seq 0 n))).
  - cbn [seq map concat Py.stride pred app].
    by rewrite <- seq_shift, map_map.
  - rewrite (seq_S n 0), map_app, concat_app. simpl. rewrite app_nil_r.
    constructor. apply Permutation_app_comm.
Qed.

Lemma shards_permutation l n :
  concat (map (λ w, Py.stride w (S n) l) (seq 0 (S n))) ≡ₚ l.
Proof.
  induction l as [|x t IH].
  - induction (seq 0 (S n)) as [|? ? IHs]; simpl; [done|apply IHs].
  - rewrite shards_cons. by constructor.
Qed.

End Shards.

(** ** Partition of the identifiers among the workers *)

Section Partition.
Context {A : Type}.

(** Worker [w] of [W] reads the positions [w], [w + W], [w + 2 W], ... *)
Lemma identifiers_shard_lookup (identifiers : list A) (w n j : nat) :
  ∃ shard,
    DownloadingIterable.identifiers_shard (Some (WorkerInfo w (S n)))
      identifiers = Ok shard
    ∧ shard !! j = identifiers !! (w + j * S n).
Proof. eexists. split; [reflexivity|]. apply stride_lookup. Qed.

(** Outside a worker process the whole list is read. *)
Lemma identifiers_shard_no_worker (identifiers : list A) :
  DownloadingIterable.identifiers_shard None identifiers = Ok identifiers.
Proof.
  unfold DownloadingIterable.identifiers_shard, Py.slice_from_step. f_equal.
  induction identifiers as [|x t IH]; simpl; [done|]. by rewrite IH.
Qed.

(** C1. For every identifier list of length L and every worker count W
    with 1 <= W <= L, the shards [identifiers[w::W]] of the workers
    w = 0 .. W-1, put together, are a rearrangement of the identifier
    list: every identifier is covered, and covered exactly once. *)
Theorem shards_cover_exactly_once (identifiers : list A) (W : nat) :
  1 ≤ W ≤ length identifiers →
  ∃ shards : list (list A),
    Forall2 (λ w shard,
               DownloadingIterable.identifiers_shard
                 (Some (WorkerInfo w W)) identifiers = Ok shard)
            (seq 0 W) shards
    ∧ concat shards ≡ₚ identifiers.
Proof.
  intros [HW _]. destruct W as [|n]; [lia|].
  exists (map (λ w, Py.stride w (S n) identifiers) (seq 0 (S n))). split.
  - apply Forall2_fmap_r, Forall_Forall2_diag, Forall_forall.
    intros w _. reflexivity.
  - apply shards_permutation.
Qed.

End Partition.

Lemma shards_cover_exactly_once_witness :
  1 ≤ 2 ≤ length ["a"; "b"; "c"]
  ∧ ∃ shards : list (list string),
      Forall2 (λ w shard,
                 DownloadingIterable.identifiers_shard
                   (Some (WorkerInfo w 2)) ["a"; "b"; "c"] = Ok shard)
              (seq 0 2) shards
      ∧ concat shards ≡ₚ ["a"; "b"; "c"].
Proof.
  split; [simpl; lia|].
  apply (shards_cover_exactly_once ["a"; "b"; "c"] 2). simpl; lia.
Defined.

(** ** The token packer in wrap mode *)

Section Packing.
Import ConcatTokensDataset.
Variable tokenize : string → list Z.
Implicit Types (N fuel : nat) (buffer : list Z) (docs : list string).

Lemma emit_short fuel N buffer :
  length buffer < N → emit fuel N buffer = Some ([], buffer).
Proof.
  intros H. destruct fuel; simpl; case_decide; (done || lia).
Qed.

Lemma emit_long fuel N buffer :
  N ≤ length buffer →
  emit (S fuel) N buffer
  = '(blocks, rest) ← emit fuel N (drop N buffer);
    Some (take N buffer :: blocks, rest).
Proof. intros H. simpl. case_decide; (done || lia). Qed.

(** With a positive block size the loop ends within [length buffer]
    rounds, every block is full, the blocks followed by what is left
    are the buffer, and what is left is short. *)
Lemma emit_total N : 0 < N → ∀ fuel buffer,
  length buffer ≤ fuel →
  ∃ blocks rest,
    emit fuel N buffer = Some (blocks, rest)
    ∧ Forall (λ b, length b = N) blocks
    ∧ length rest < N
    ∧ concat blocks ++ rest = buffer.
Proof.
  intros HN. induction fuel as [|fuel IH]; intros buffer Hfuel.
  - exists [], buffer. rewrite emit_short by lia.
    repeat split; [constructor|lia].
  - destruct (decide (N ≤ length buffer)) as [Hge|Hlt].
    + destruct (IH (drop N buffer)) as (blocks & rest & He & Hall & Hrest & Hcat).
      { rewrite length_drop. lia. }
      exists (take N buffer :: blocks), rest.
      rewrite emit_long, He by done. simpl. repeat split; [|done|].
      * constructor; [|done]. rewrite length_take. lia.
      * by rewrite <- app_assoc, Hcat, take_drop.
    + exists [], buffer. rewrite emit_short by lia.
      repeat split; [constructor|lia].
Qed.

(** More fuel than needed changes nothing. *)
Lemma emit_fuel_mono N : ∀ fuel fuel' buffer r,
  emit fuel N buffer = Some r → fuel ≤ fuel' → emit fuel' N buffer = Some r.
Proof.
  induction fuel as [|fuel IH]; intros fuel' buffer r He Hle.
  - simpl in He. case_decide; [done|].
    rewrite emit_short by lia. done.
  - destruct fuel' as [|fuel']; [lia|].
    destruct (decide (N ≤ length buffer)) as [Hge|Hlt].
    + rewrite emit_long in * by done.
      destruct (emit fuel N (drop N buffer)) as [[blocks rest]|] eqn:E;
        [|done].
      rewrite (IH fuel' _ _ E) by lia. done.
    + rewrite emit_short in * by lia. done.
Qed.

Lemma wrap_from_total N bos_text eos_text : 0 < N → ∀ docs buffer,
  length buffer < N →
  ∃ blocks final,
    wrap_from tokenize N bos_text eos_text docs buffer
    = Some (blocks, final)
    ∧ Forall (λ b, length b = N) blocks
    ∧ length final < N
    ∧ concat blocks ++ final
      = buffer
        ++ concat (map (document_tokens tokenize bos_text eos_text) docs).
Proof.
  intros HN. induction docs as [|doc docs IH]; intros buffer Hbuf.
  - exists [], buffer. simpl. rewrite app_nil_r.
    repeat split; [constructor|done].
  - simpl.
    destruct (emit_total N HN
                (length (buffer ++ document_tokens tokenize bos_text eos_text doc))
                (buffer ++ document_tokens tokenize bos_text eos_text doc))
      as (blocks & rest & He & Hall & Hrest & Hcat); [done|].
    destruct (IH rest Hrest) as (blocks' & final & Hw & Hall' & Hfinal & Hcat').
    exists (blocks ++ blocks'), final.
    rewrite He. simpl. rewrite Hw. simpl. repeat split; [|done|].
    + by apply Forall_app.
    + rewrite concat_app, <- app_assoc, Hcat', !app_assoc. by rewrite Hcat.
Qed.

(** C3 (against the packer as the specification describes it). In wrap
    mode, for every finite stream of documents and every positive block
    size N, the packer ends and every block it emits has exactly N
    tokens: the loop emits nothing from a buffer shorter than N, from a
    longer buffer it emits the first N tokens and goes on with the
    rest, the blocks in order followed by the final remainder are the
    token stream of the documents, and that remainder, shorter than N,
    is not among the blocks. *)
Theorem wrap_blocks_full (N : nat) (bos_text eos_text : string) docs :
  0 < N →
  (∀ buffer, length buffer < N →
     emit (length buffer) N buffer = Some ([], buffer))
  ∧ (∀ buffer, N ≤ length buffer →
     ∃ blocks rest,
       emit (length (drop N buffer)) N (drop N buffer) = Some (blocks, rest)
       ∧ emit (length buffer) N buffer
         = Some (take N buffer :: blocks, rest))
  ∧ ∃ blocks final,
      wrap_from tokenize N bos_text eos_text docs [] = Some (blocks, final)
      ∧ wrap tokenize N bos_text eos_text docs = Some blocks
      ∧ Forall (λ b, length b = N) blocks
      ∧ length final < N
      ∧ concat blocks ++ final
        = concat (map (document_tokens tokenize bos_text eos_text) docs).
Proof.
  intros HN. split; [|split].
  - intros buffer H. by apply emit_short.
  - intros buffer H.
    destruct (emit_total N HN (length (drop N buffer)) (drop N buffer))
      as (blocks & rest & He & _); [done|].
    exists blocks, rest. split; [done|].
    destruct (length buffer) as [|fuel] eqn:El; [lia|].
    rewrite emit_long by lia.
    rewrite (emit_fuel_mono N _ fuel _ _ He); [done|].
    rewrite length_drop. lia.
  - destruct (wrap_from_total N bos_text eos_text HN docs [])
      as (blocks & final & Hw & Hall & Hfinal & Hcat); [simpl; lia|].
    exists blocks, final. unfold wrap. rewrite Hw. done.
Qed.

(** C2, amended (against the packer as the specification describes
    it). With N = 10, no boundary text and three documents of 5, 7 and
    4 tokens, wrap mode emits exactly one block: the 5 tokens of the
    first document and the first 5 of the second.  The other 6 tokens
    (2 of the second document, 4 of the third) are the remainder at the
    end of the stream and are dropped. *)
Theorem wrap_5_7_4 (d1 d2 d3 : string) :
  length (tokenize d1) = 5 →
  length (tokenize d2) = 7 →
  length (tokenize d3) = 4 →
  wrap tokenize 10 "" "" [d1; d2; d3]
  = Some [tokenize d1 ++ take 5 (tokenize d2)]
  ∧ wrap_from tokenize 10 "" "" [d1; d2; d3] []
    = Some ([tokenize d1 ++ take 5 (tokenize d2)],
            drop 5 (tokenize d2) ++ tokenize d3)
  ∧ length (drop 5 (tokenize d2) ++ tokenize d3) = 6.
Proof.
  intros H1 H2 H3.
  assert (wrap_from tokenize 10 "" "" [d1; d2; d3] []
          = Some ([tokenize d1 ++ take 5 (tokenize d2)],
                  drop 5 (tokenize d2) ++ tokenize d3)) as Hw.
  { assert (∀ text, document_tokens tokenize "" "" text = tokenize text)
      as Hdoc by (intros; unfold document_tokens; simpl; apply app_nil_r).
    cbn [wrap_from]. rewrite !Hdoc. cbn [app].
    rewrite emit_short by lia. cbn [mbind option_bind].
    rewrite length_app, H1, H2. cbn [Nat.add].
    rewrite emit_long by (rewrite length_app; lia).
    rewrite emit_short by (rewrite length_drop, length_app; lia).
    cbn [mbind option_bind].
    rewrite (take_app_ge (tokenize d1)), (drop_app_ge (tokenize d1)) by lia.
    rewrite H1. cbn [Nat.sub].
    rewrite emit_short by (rewrite length_app, length_drop; lia).
    done. }
  split; [|split; [done|]].
  - unfold wrap. by rewrite Hw.
  - rewrite length_app, length_drop. lia.
Qed.

End Packing.

Lemma wrap_blocks_full_witness :
  0 < 3
  ∧ ∃ blocks final,
      ConcatTokensDataset.wrap_from char_tokenize 3 "<" ">" ["ab"; "c"] []
      = Some (blocks, final)
      ∧ Forall (λ b, length b = 3) blocks
      ∧ length final < 3.
Proof.
  split; [lia|].
  destruct (wrap_blocks_full char_tokenize 3 "<" ">" ["ab"; "c"])
    as (_ & _ & blocks & final & Hw & _ & Hall & Hfinal & _); [lia|].
  by exists blocks, final.
Defined.

Lemma wrap_5_7_4_witness :
  length (char_tokenize "abcde") = 5
  ∧ length (char_tokenize "fghijkl") = 7
  ∧ length (char_tokenize "mnop") = 4
  ∧ ConcatTokensDataset.wrap char_tokenize 10 "" ""
      ["abcde"; "fghijkl"; "mnop"]
    = Some [char_tokenize "abcde" ++ take 5 (char_tokenize "fghijkl")].
Proof.
  split; [reflexivity|]. split; [reflexivity|]. split; [reflexivity|].
  apply (wrap_5_7_4 char_tokenize "abcde" "fghijkl" "mnop"); reflexivity.
Defined.

(** The packer does not emit two blocks on documents of 5, 7 and 4
    tokens: the 6 tokens behind the first block never reach N = 10. *)
Lemma wrap_5_7_4_not_two_blocks :
  ¬ ∃ block1 block2,
      ConcatTokensDataset.wrap char_tokenize 10 "" ""
        ["abcde"; "fghijkl"; "mnop"]
      = Some [block1; block2].
Proof. intros (block1 & block2 & H). vm_compute in H. discriminate H. Qed.

(** ** Validation of the command line *)

Section ParseArgs.
Implicit Types (tree : gmap string (list string)) (cl : cmdline).

Lemma argparse_ok cl out inp :
  cl_out_root cl = Some out → cl_in_root cl = Some inp →
  ∃ parsed,
    argparse cl = Ok parsed
    ∧ out_root parsed = out
    ∧ concat_tokens parsed = cl_concat_tokens cl
    ∧ tokenizer parsed = cl_tokenizer cl
    ∧ bos_text parsed = cl_bos_text cl
    ∧ eos_text parsed = cl_eos_text cl.
Proof.
  intros Ho Hi. unfold argparse. rewrite Ho, Hi.
  eexists. split; [reflexivity|]. simpl. done.
Qed.

Lemma argparse_inv cl parsed :
  argparse cl = Ok parsed →
  cl_out_root cl = Some (out_root parsed)
  ∧ concat_tokens parsed = cl_concat_tokens cl
  ∧ tokenizer parsed = cl_tokenizer cl
  ∧ bos_text parsed = cl_bos_text cl
  ∧ eos_text parsed = cl_eos_text cl.
Proof.
  unfold argparse.
  destruct (cl_out_root cl), (cl_in_root cl); intros [= <-]; done.
Qed.

(** Whatever an existing output directory holds, the first check ends
    in the [AttributeError] of [parsed.splits]: its [ValueError] is out
    of reach. *)
Lemma check_out_root_existing tree parsed entries :
  tree !! out_root parsed = Some entries →
  check_out_root tree parsed = Raise (AttributeError "splits").
Proof.
  intros H. unfold check_out_root, isdir, listdir. rewrite H.
  rewrite bool_decide_eq_true_2 by eauto. done.
Qed.

Lemma check_out_root_missing tree parsed :
  tree !! out_root parsed = None → check_out_root tree parsed = Ok ().
Proof.
  intros H. unfold check_out_root, isdir. rewrite H.
  rewrite bool_decide_eq_false_2; [done|]. by intros [? ?].
Qed.

Lemma parse_args_existing tree cl out inp entries :
  cl_out_root cl = Some out → cl_in_root cl = Some inp →
  tree !! out = Some entries →
  parse_args tree cl = Raise (AttributeError "splits").
Proof.
  intros Ho Hi Ht.
  destruct (argparse_ok cl out inp Ho Hi) as (parsed & Hp & Hout & _).
  unfold parse_args. rewrite Hp. simpl.
  rewrite (check_out_root_existing tree parsed entries) by by rewrite Hout.
  done.
Qed.

(** An output root that does not exist passes the first check, and the
    outcome of [parse_args] is then that of the second. *)
Lemma parse_args_missing tree cl parsed :
  argparse cl = Ok parsed →
  tree !! out_root parsed = None →
  check_out_root tree parsed = Ok ()
  ∧ is_ok (parse_args tree cl) = is_ok (check_concat_options parsed).
Proof.
  intros Hp Ht. split; [by apply check_out_root_missing|].
  unfold parse_args. rewrite Hp. simpl.
  rewrite check_out_root_missing by done. simpl.
  destruct (check_concat_options parsed); done.
Qed.

(** C7. For every parsed argument set with an integer [--concat_tokens]
    and no [--tokenizer], the second check ends in [parser.error]
    (exit status 2) and [parse_args] returns no namespace, whatever the
    first check did; with both options supplied the second check
    passes. *)
Theorem concat_tokens_needs_tokenizer tree cl parsed (n : Z) :
  argparse cl = Ok parsed →
  concat_tokens parsed = Some n →
  (tokenizer parsed = None →
     check_concat_options parsed
     = Raise (SystemExit 2
         "When setting --concat_tokens, you must specify a --tokenizer")
     ∧ is_ok (parse_args tree cl) = false)
  ∧ (∀ name, tokenizer parsed = Some name →
       check_concat_options parsed = Ok ()).
Proof.
  intros Hp Hn. split.
  - intros Ht.
    assert (check_concat_options parsed
            = Raise (SystemExit 2
                "When setting --concat_tokens, you must specify a --tokenizer"))
      as Hc by (unfold check_concat_options; by rewrite Hn, Ht).
    split; [done|].
    unfold parse_args. rewrite Hp. simpl.
    destruct (check_out_root tree parsed); simpl; [|done].
    by rewrite Hc.
  - intros name Ht. unfold check_concat_options. by rewrite Hn, Ht.
Qed.

(** C8. Whenever [parse_args] returns, the boundary texts it returns
    are the strings given on the command line, and the empty string
    for one that was not given; with neither given, the token sequence
    of every document is the tokenizer's output alone (the packer as
    the specification describes it inserts nothing for an empty
    text). *)
Theorem boundary_text_defaults tree cl parsed :
  parse_args tree cl = Ok parsed →
  bos_text parsed = Some (default "" (cl_bos_text cl))
  ∧ eos_text parsed = Some (default "" (cl_eos_text cl))
  ∧ (cl_bos_text cl = None → cl_eos_text cl = None →
     ∀ tokenize bos eos text,
       bos_text parsed = Some bos → eos_text parsed = Some eos →
       ConcatTokensDataset.document_tokens tokenize bos eos text
       = tokenize text).
Proof.
  unfold parse_args. intros H.
  destruct (argparse cl) as [p|] eqn:Hp; [|done].
  destruct (argparse_inv cl p Hp) as (_ & _ & _ & Hb & He).
  simpl in H.
  destruct (check_out_root tree p); [|done]. simpl in H.
  destruct (check_concat_options p); [|done]. simpl in H.
  assert (bos_text parsed = Some (default "" (cl_bos_text cl))
          ∧ eos_text parsed = Some (default "" (cl_eos_text cl)))
    as [Hb' He'].
  { rewrite <- Hb, <- He.
    destruct (bos_text p) as [b|] eqn:Eb, (eos_text p) as [e|] eqn:Ee;
      simpl in H; rewrite ?Eb, ?Ee in H; injection H as <-;
      simpl; rewrite ?Eb, ?Ee; done. }
  split; [done|]. split; [done|].
  intros Hnb Hne tokenize bos eos text Hbos Heos.
  rewrite Hb', Hnb in Hbos. rewrite He', Hne in Heos.
  injection Hbos as <-. injection Heos as <-.
  unfold ConcatTokensDataset.document_tokens,
    ConcatTokensDataset.boundary_tokens. simpl. apply app_nil_r.
Qed.

End ParseArgs.

(** C5, on the code. With [out_root] an existing directory that holds an
    entry named [train], [parse_args] ends in the [AttributeError] of
    [parsed.splits], not in the [ValueError] that reports the overlap;
    it does the same on an empty directory. *)
Theorem out_root_overlap_attribute_error :
  parse_args {[ "out" := ["train"; "notes.txt"] ]} minimal_cmdline
  = Raise (AttributeError "splits")
  ∧ parse_args {[ "out" := [] ]} minimal_cmdline
    = Raise (AttributeError "splits")
  ∧ is_ok (parse_args ∅ minimal_cmdline) = true.
Proof.
  split; [|split].
  - by apply (parse_args_existing _ _ "out" "s3://bucket/data"
                ["train"; "notes.txt"]).
  - by apply (parse_args_existing _ _ "out" "s3://bucket/data" []).
  - reflexivity.
Qed.

Lemma concat_tokens_needs_tokenizer_witness :
  is_ok (parse_args ∅ (concat_cmdline None)) = false
  ∧ check_concat_options
      (MkNamespace 64 None "out" "s3://bucket/data" "small_full" "zstd"
         (Some 2048%Z) (Some "gpt2") None (Some "<|endoftext|>") false)
    = Ok ().
Proof.
  split.
  - eapply (concat_tokens_needs_tokenizer ∅ (concat_cmdline None));
      reflexivity.
  - eapply (concat_tokens_needs_tokenizer ∅ (concat_cmdline (Some "gpt2")));
      reflexivity.
Defined.

Lemma boundary_text_defaults_witness :
  parse_args ∅ minimal_cmdline
  = Ok (MkNamespace 64 None "out" "s3://bucket/data" "small_full" "zstd"
          None None (Some "") (Some "") false)
  ∧ ∀ tokenize text,
      ConcatTokensDataset.document_tokens tokenize "" "" text = tokenize text.
Proof.
  split; [reflexivity|]. intros tokenize text.
  eapply (boundary_text_defaults ∅ minimal_cmdline
            (MkNamespace 64 None "out" "s3://bucket/data" "small_full" "zstd"
               None None (Some "") (Some "") false));
    reflexivity.
Defined.

(** ** Flattening the batches into samples *)

Section Samples.
Context {V : Type}.
Implicit Types (b : batch V) (loader : list (batch V)) (k n : Z).

Lemma sample_at_row b idx :
  Forall (λ kv, idx < length kv.2) b → sample_at b idx = Ok (row b idx).
Proof.
  unfold sample_at, row. induction 1 as [|[key column] b Hlt _ IH]; [done|].
  simpl in *. destruct (lookup_lt_is_Some_2 column idx Hlt) as [x Hx].
  rewrite Hx. simpl. by rewrite IH.
Qed.

(** A row has the keys of its batch and, under each, the entry of that
    key's column at the row's index. *)
Lemma row_keys_values b idx :
  Forall (λ kv, idx < length kv.2) b →
  map fst (row b idx) = map fst b
  ∧ ∀ j key column, b !! j = Some (key, column) →
      ∃ x, column !! idx = Some x ∧ row b idx !! j = Some (key, x).
Proof.
  unfold row. induction 1 as [|[key0 column0] b Hlt _ [IHk IHv]].
  { split; [done|]. intros j ? ? Hj. by destruct j. }
  simpl in *. destruct (lookup_lt_is_Some_2 column0 idx Hlt) as [x Hx].
  rewrite Hx. simpl. split; [f_equal; exact IHk|].
  intros [|j] key column Hj; simpl in Hj.
  - injection Hj as <- <-. eauto.
  - exact (IHv j key column Hj).
Qed.

Lemma length_all_rows loader :
  length (all_rows loader) = sum_list (map batch_size loader).
Proof.
  unfold all_rows. induction loader as [|b loader IH]; [done|].
  simpl. rewrite length_app, IH. unfold rows.
  by rewrite length_map, length_seq.
Qed.

(** One batch, no limit: every index yields its row. *)
Lemma batch_samples_all b : ∀ idxs n,
  Forall (λ idx, sample_at b idx = Ok (row b idx)) idxs →
  batch_samples None b idxs n
  = (map (row b) idxs, Exhausted (n + Z.of_nat (length idxs))).
Proof.
  induction idxs as [|idx idxs IH]; intros n Hall; simpl.
  - do 2 f_equal. lia.
  - inversion Hall as [|? ? Hidx Hall']; subst.
    rewrite Hidx, (IH _ Hall'). do 2 f_equal. lia.
Qed.

(** One batch under a limit [k]: the limit stops the loop when the
    counter reaches it inside the batch, and not otherwise. *)
Lemma batch_samples_limit b k : ∀ idxs n,
  Forall (λ idx, sample_at b idx = Ok (row b idx)) idxs →
  batch_samples (Some k) b idxs n
  = if decide (n ≤ k < n + Z.of_nat (length idxs))%Z
    then (take (Z.to_nat (k - n)) (map (row b) idxs), Returned)
    else (map (row b) idxs, Exhausted (n + Z.of_nat (length idxs))).
Proof.
  induction idxs as [|idx idxs IH]; intros n Hall.
  - simpl. case_decide; [lia|]. do 2 f_equal. lia.
  - inversion Hall as [|? ? Hidx Hall']; subst.
    cbn [batch_samples]. case_bool_decide as Hnk.
    + subst k. rewrite decide_True by (simpl length; lia).
      by rewrite Z.sub_diag.
    + rewrite Hidx, (IH _ Hall'). cbn [length map].
      destruct (decide (n + 1 ≤ k < n + 1 + Z.of_nat (length idxs))%Z).
      * rewrite decide_True by lia.
        replace (Z.to_nat (k - n)) with (S (Z.to_nat (k - (n + 1)))) by lia.
        done.
      * rewrite decide_False by lia. do 2 f_equal. lia.
Qed.

Lemma well_formed_rows b :
  well_formed b →
  Forall (λ idx, sample_at b idx = Ok (row b idx)) (seq 0 (batch_size b)).
Proof.
  intros [_ Hlen]. apply Forall_forall. intros idx Hidx.
  apply elem_of_seq in Hidx. apply sample_at_row.
  eapply Forall_impl; [exact Hlen|]. simpl. intros kv Hkv. lia.
Qed.

Lemma generate_samples_from_all loader : ∀ n,
  Forall well_formed loader →
  generate_samples_from loader None n = Run (all_rows loader) None.
Proof.
  induction loader as [|b loader IH]; intros n Hwf; [done|].
  inversion Hwf as [|? ? Hb Hwf']; subst.
  pose proof (well_formed_rows b Hb) as Hrows.
  destruct b as [|[key0 column0] b]; [by destruct Hb|].
  cbn [generate_samples_from].
  change (length column0) with (batch_size ((key0, column0) :: b)).
  rewrite (batch_samples_all _ _ _ Hrows), (IH _ Hwf'). done.
Qed.

Lemma generate_samples_from_limit loader k : ∀ n,
  Forall well_formed loader →
  generate_samples_from loader (Some k) n
  = Run (if decide (n ≤ k)%Z
         then take (Z.to_nat (k - n)) (all_rows loader)
         else all_rows loader) None.
Proof.
  induction loader as [|b loader IH]; intros n Hwf.
  { change (all_rows (@nil (batch V))) with (@nil (sample V)).
    simpl. case_decide; by rewrite ?take_nil. }
  inversion Hwf as [|? ? Hb Hwf']; subst.
  pose proof (well_formed_rows b Hb) as Hrows.
  destruct b as [|[key0 column0] b]; [by destruct Hb|].
  cbn [generate_samples_from].
  change (length column0) with (batch_size ((key0, column0) :: b)).
  rewrite (batch_samples_limit _ _ _ _ Hrows), length_seq.
  unfold all_rows. cbn [map concat]. fold (all_rows loader).
  fold (rows ((key0, column0) :: b)).
  assert (length (rows ((key0, column0) :: b))
          = batch_size ((key0, column0) :: b)) as Hlen
    by (unfold rows; by rewrite length_map, length_seq).
  set (bs := batch_size ((key0, column0) :: b)) in *.
  case_decide as Hin.
  - rewrite decide_True by lia. f_equal.
    rewrite take_app_le by lia. done.
  - rewrite (IH _ Hwf'). cbn [yielded raised]. f_equal.
    destruct (decide (n ≤ k)%Z) as [Hle|Hgt].
    + rewrite decide_True by lia. rewrite take_app_ge by lia.
      f_equal. f_equal. lia.
    + rewrite decide_False by lia. done.
Qed.

(** C10, amended. For every loader whose batches each have a column and
    columns of one length, [generate_samples] ends without an exception
    and yields the rows of the loader in batch order and, within a batch,
    index order: all of them when the limit is [None] or negative, the
    first [min k total] of them for a limit [k >= 0]; each row carries
    the keys of its batch and, under each key, the entry of that key's
    column at the row's index. *)
Theorem generate_samples_rows loader :
  Forall well_formed loader →
  generate_samples loader None = Run (all_rows loader) None
  ∧ (∀ k, (0 ≤ k)%Z →
       generate_samples loader (Some k)
       = Run (take (Z.to_nat k) (all_rows loader)) None
       ∧ Z.of_nat (length (yielded (generate_samples loader (Some k))))
         = Z.min k (Z.of_nat (sum_list (map batch_size loader))))
  ∧ (∀ k, (k < 0)%Z →
       generate_samples loader (Some k) = Run (all_rows loader) None)
  ∧ length (all_rows loader) = sum_list (map batch_size loader)
  ∧ (∀ b idx, b ∈ loader → idx < batch_size b →
       map fst (row b idx) = map fst b
       ∧ ∀ j key column, b !! j = Some (key, column) →
           ∃ x, column !! idx = Some x ∧ row b idx !! j = Some (key, x)).
Proof.
  intros Hwf. unfold generate_samples.
  split; [|split; [|split; [|split]]].
  - by apply generate_samples_from_all.
  - intros k Hk. rewrite generate_samples_from_limit by done.
    rewrite decide_True, Z.sub_0_r by done. split; [done|].
    cbn [yielded]. rewrite length_take, length_all_rows. lia.
  - intros k Hk. rewrite generate_samples_from_limit by done.
    by rewrite decide_False by lia.
  - apply length_all_rows.
  - intros b idx Hb Hidx. rewrite Forall_forall in Hwf.
    destruct (Hwf b Hb) as [_ Hlen].
    apply row_keys_values. eapply Forall_impl; [exact Hlen|].
    simpl. intros kv Hkv. lia.
Qed.

End Samples.

Lemma generate_samples_rows_witness :
  Forall well_formed
    [[("tokens", ["a"; "b"]); ("ids", ["0"; "1"])]; [("tokens", ["c"]); ("ids", ["2"])]]
  ∧ generate_samples
      [[("tokens", ["a"; "b"]); ("ids", ["0"; "1"])]; [("tokens", ["c"]); ("ids", ["2"])]]
      (Some 2%Z)
    = Run [[("tokens", "a"); ("ids", "0")]; [("tokens", "b"); ("ids", "1")]] None.
Proof.
  assert (Forall well_formed
            [[("tokens", ["a"; "b"]); ("ids", ["0"; "1"])];
             [("tokens", ["c"]); ("ids", ["2"])]]) as Hwf.
  { repeat constructor; done. }
  split; [exact Hwf|].
  destruct (generate_samples_rows _ Hwf) as (_ & Hk & _).
  destruct (Hk 2%Z) as [-> _]; [lia|]. reflexivity.
Defined.

(** With the limit -1 the counter never meets the limit: both samples of
    the batch are yielded, which is not [min (-1) 2] of them. *)
Lemma generate_samples_negative_limit :
  generate_samples [[("tokens", ["a"; "b"])]] (Some (-1)%Z)
  = Run [[("tokens", "a")]; [("tokens", "b")]] None
  ∧ Z.of_nat (length (yielded (generate_samples [[("tokens", ["a"; "b"])]]
                                 (Some (-1)%Z))))
    ≠ Z.min (-1) (Z.of_nat (sum_list (map batch_size [[("tokens", ["a"; "b"])]]))).
Proof. split; [reflexivity|]. vm_compute. discriminate. Qed.

(** ** Resolving the identifiers *)

Section Resolver.
Implicit Types (data : list example) (seen : gset string).

Lemma elem_of_unique_from values : ∀ seen v,
  v ∈ unique_from seen values ↔ v ∈ values ∧ v ∉ seen.
Proof.
  induction values as [|w values IH]; intros seen v; simpl.
  - rewrite elem_of_nil. tauto.
  - case_decide as Hw.
    + rewrite IH, elem_of_cons. split; [tauto|].
      intros [[->|Hv] Hn]; tauto.
    + rewrite !elem_of_cons, IH, not_elem_of_union, elem_of_singleton.
      destruct (decide (v = w)) as [->|Hne]; tauto.
Qed.

Lemma NoDup_unique_from values : ∀ seen, NoDup (unique_from seen values).
Proof.
  induction values as [|w values IH]; intros seen; simpl; [constructor|].
  case_decide; [apply IH|]. constructor; [|apply IH].
  rewrite elem_of_unique_from, not_elem_of_union, elem_of_singleton. tauto.
Qed.

Lemma joined_identifier_ok ex ticker rest :
  tickers ex = ticker :: rest →
  ∃ ex', joined_identifier ex = Ok ex'
         ∧ joined ex' = Some (join3 (docID ex) ticker (reportDate ex)).
Proof. intros H. unfold joined_identifier. rewrite H. by eexists. Qed.

Lemma joined_identifier_inv ex e :
  joined_identifier ex = Raise e → e = IndexError "list index out of range".
Proof.
  unfold joined_identifier. destruct (tickers ex); [|done]. by intros [= <-].
Qed.

Lemma dataset_map_all data :
  Forall (λ ex, tickers ex ≠ []) data →
  ∃ data',
    dataset_map joined_identifier data = Ok data'
    ∧ omap joined data' = omap identifier_of data.
Proof.
  unfold dataset_map. induction 1 as [|ex data Hex _ (data' & Hmap & Hcol)].
  - by exists [].
  - destruct (tickers ex) as [|ticker rest] eqn:Et; [done|].
    destruct (joined_identifier_ok ex ticker rest Et) as (ex' & Hj & Hcol').
    exists (ex' :: data'). cbn [traverse]. rewrite Hj, Hmap.
    split; [done|]. cbn [omap list_omap]. unfold identifier_of at 1.
    rewrite Hcol', Et. f_equal. exact Hcol.
Qed.

Lemma dataset_map_abort data :
  Exists (λ ex, tickers ex = []) data →
  dataset_map joined_identifier data
  = Raise (IndexError "list index out of range").
Proof.
  unfold dataset_map. induction 1 as [ex data Hex|ex data _ IH].
  - cbn [traverse]. unfold joined_identifier. by rewrite Hex.
  - cbn [traverse]. rewrite IH.
    destruct (joined_identifier ex) as [ex'|e] eqn:E; [done|].
    by rewrite (joined_identifier_inv ex e E).
Qed.

(** C4, amended. When every record has a ticker, the resolution pass
    returns the identifiers without repetition, and the identifier built
    from the first ticker of every record is among them (and nothing
    else is).  A record with an empty ticker list is not skipped: the
    [IndexError] of [tickers[0]] ends the whole pass. *)
Theorem unique_identifiers_all_or_abort data :
  (Forall (λ ex, tickers ex ≠ []) data →
     ∃ ids,
       unique_identifiers data = Ok ids
       ∧ NoDup ids
       ∧ ∀ i, i ∈ ids ↔ ∃ ex, ex ∈ data ∧ identifier_of ex = Some i)
  ∧ (Exists (λ ex, tickers ex = []) data →
     unique_identifiers data = Raise (IndexError "list index out of range")).
Proof.
  unfold unique_identifiers. split.
  - intros Hall. destruct (dataset_map_all data Hall) as (data' & -> & Hcol).
    simpl. eexists. split; [reflexivity|]. unfold dataset_unique.
    split; [apply NoDup_unique_from|].
    intros i. rewrite elem_of_unique_from, Hcol, list_elem_of_omap.
    split; [tauto|]. intros H. split; [done|]. apply not_elem_of_empty.
  - intros Hex. by rewrite dataset_map_abort.
Qed.

End Resolver.

Lemma unique_identifiers_all_or_abort_witness :
  unique_identifiers
    [Example "d1" ["AAPL"; "APC"] "2020-10-30" None;
     Example "d1" ["AAPL"] "2020-10-30" None;
     Example "d2" ["MSFT"] "2021-07-29" None]
  = Ok ["d1|||AAPL|||2020-10-30"; "d2|||MSFT|||2021-07-29"]
  ∧ unique_identifiers
      [Example "d1" ["AAPL"] "2020-10-30" None; Example "d3" [] "2019-01-01" None]
    = Raise (IndexError "list index out of range").
Proof.
  split.
  - destruct (unique_identifiers_all_or_abort
                [Example "d1" ["AAPL"; "APC"] "2020-10-30" None;
                 Example "d1" ["AAPL"] "2020-10-30" None;
                 Example "d2" ["MSFT"] "2021-07-29" None]) as [H _].
    destruct H as (ids & Hids & _); [repeat constructor; done|].
    vm_compute. reflexivity.
  - apply unique_identifiers_all_or_abort.
    apply Exists_cons_tl, Exists_cons_hd. reflexivity.
Defined.

(** A record without tickers is not skipped: the pass returns no
    identifier list at all, although the other record has a ticker. *)
Lemma empty_tickers_abort_resolution :
  ¬ ∃ ids,
      unique_identifiers
        [Example "d3" [] "2019-01-01" None;
         Example "d1" ["AAPL"] "2020-10-30" None]
      = Ok ids.
Proof. intros [ids H]. vm_compute in H. discriminate H. Qed.

(** ** Strings: prefixes, occurrences and [split] *)

#[local] Arguments String.append !_ _ / : simpl nomatch.
#[local] Arguments Ascii.eqb : simpl never.

Section Strings.
Implicit Types (s t a b sep : string) (c : Ascii.ascii).

Lemma append_assoc s t b : (s +:+ t) +:+ b = s +:+ t +:+ b.
Proof. induction s as [|c s IH]; simpl; [done|]. by f_equal. Qed.

Lemma append_nil_r s : s +:+ "" = s.
Proof. induction s as [|c s IH]; simpl; [done|]. by f_equal. Qed.

Lemma length_append s t :
  String.length (s +:+ t) = String.length s + String.length t.
Proof. induction s as [|c s IH]; simpl; [done|]. by f_equal. Qed.

Lemma startswith_append sep t : Py.startswith sep (sep +:+ t) = true.
Proof.
  induction sep as [|c sep IH]; simpl; [done|].
  rewrite Ascii.eqb_refl. exact IH.
Qed.

Lemma startswith_weaken sep : ∀ s t,
  Py.startswith sep s = true → Py.startswith sep (s +:+ t) = true.
Proof.
  induction sep as [|c sep IH]; intros [|c' s] t; simpl; try done.
  intros [-> H]%andb_true_iff. exact (IH _ _ H).
Qed.

Lemma startswith_inv sep : ∀ s,
  Py.startswith sep s = true → ∃ t, s = sep +:+ t.
Proof.
  induction sep as [|c sep IH]; intros [|c' s]; simpl; try done.
  - by exists "".
  - by eexists.
  - intros [->%Ascii.eqb_eq [t ->]%IH]%andb_true_iff. by exists t.
Qed.

Lemma contains_unfold sep s :
  Py.contains sep s
  = Py.startswith sep s
    || match s with
       | EmptyString => false
       | String _ s' => Py.contains sep s'
       end.
Proof. by destruct s. Qed.

Lemma contains_inv sep : ∀ s,
  Py.contains sep s = true → ∃ a b, s = a +:+ sep +:+ b.
Proof.
  induction s as [|c s IH]; rewrite contains_unfold.
  - rewrite orb_false_r. intros [t ->]%startswith_inv. by exists "", t.
  - intros [[t Ht]%startswith_inv|[a [b ->]]%IH]%orb_true_iff.
    + by exists "", t.
    + by exists (String c a), b.
Qed.

Lemma contains_append sep a b : Py.contains sep (a +:+ sep +:+ b) = true.
Proof.
  induction a as [|c a IH].
  - rewrite contains_unfold. simpl. by rewrite startswith_append.
  - rewrite contains_unfold. simpl. rewrite IH. apply orb_true_r.
Qed.

End Strings.

Section Split.
Implicit Types (s t a b sep : string) (c : Ascii.ascii).

Lemma split_from_nonempty sep : ∀ s skip, Py.split_from sep s skip ≠ [].
Proof.
  induction s as [|c s IH]; intros skip; simpl; [done|].
  destruct skip; [|apply IH].
  destruct (Py.startswith sep (String c s)); [done|].
  by destruct (Py.split_from sep s 0).
Qed.

(** The characters of a separator just matched are passed over. *)
Lemma split_from_skip sep a : ∀ s skip,
  Py.split_from sep (a +:+ s) (String.length a + skip)
  = Py.split_from sep s skip.
Proof. induction a as [|c a IH]; intros s skip; simpl; [done|apply IH]. Qed.

Lemma split_separator sep b :
  sep ≠ "" → Py.split sep (sep +:+ b) = "" :: Py.split sep b.
Proof.
  intros Hsep. destruct sep as [|c sep]; [done|].
  unfold Py.split. change (String c sep +:+ b) with (String c (sep +:+ b)).
  cbn [Py.split_from].
  change (String c (sep +:+ b)) with (String c sep +:+ b).
  rewrite startswith_append. f_equal. simpl.
  rewrite <- (Nat.add_0_r (String.length sep)). apply split_from_skip.
Qed.

Lemma split_cons sep c s :
  Py.startswith sep (String c s) = false →
  Py.split sep (String c s)
  = match Py.split sep s with
    | p :: ps => String c p :: ps
    | [] => [String c ""]
    end.
Proof. intros H. unfold Py.split. simpl. by rewrite H. Qed.

(** Where no separator starts inside [a], the first part is [a]. *)
Lemma split_unmatched sep a b :
  sep ≠ "" → unmatched sep a (sep +:+ b) = true →
  Py.split sep (a +:+ sep +:+ b) = a :: Py.split sep b.
Proof.
  intros Hsep. induction a as [|c a IH]; simpl.
  - intros _. by apply split_separator.
  - intros [Hc Ha]%andb_true_iff. apply negb_true_iff in Hc.
    rewrite split_cons by done. by rewrite IH.
Qed.

(** And only there. *)
Lemma split_head_inv sep a b ps :
  sep ≠ "" →
  Py.split sep (a +:+ sep +:+ b) = a :: ps →
  unmatched sep a (sep +:+ b) = true ∧ ps = Py.split sep b.
Proof.
  intros Hsep. revert ps. induction a as [|c a IH]; intros ps; simpl.
  - rewrite split_separator by done. by intros [= <-].
  - destruct (Py.startswith sep (String c (a +:+ sep +:+ b))) eqn:Hc.
    + destruct (startswith_inv _ _ Hc) as [t Ht]. rewrite Ht.
      rewrite split_separator by done. done.
    + rewrite split_cons by done.
      destruct (Py.split sep (a +:+ sep +:+ b)) as [|p ps'] eqn:E.
      { by apply split_from_nonempty in E. }
      intros [= -> ->]. by apply IH.
Qed.

(** A string without the separator is its own single part, and no other
    string is. *)
Lemma split_single sep s :
  sep ≠ "" → (Py.split sep s = [s] ↔ Py.contains sep s = false).
Proof.
  intros Hsep. induction s as [|c s IH].
  - simpl. split; [|done]. intros _. by destruct sep.
  - rewrite contains_unfold, orb_false_iff.
    destruct (Py.startswith sep (String c s)) eqn:Hc.
    + split; [|by intros [? _]].
      destruct (startswith_inv _ _ Hc) as [t Ht].
      assert (Py.split sep (String c s) = "" :: Py.split sep t) as ->
        by (rewrite Ht; by apply split_separator).
      done.
    + rewrite split_cons by done.
      destruct (Py.split sep s) as [|p ps] eqn:E.
      { by apply split_from_nonempty in E. }
      rewrite <- IH. split.
      * intros [= -> ->]. done.
      * intros [_ [= -> ->]]. done.
Qed.

End Split.

Section Bars.
Implicit Types (s t a b sep : string) (c : Ascii.ascii).

Lemma endswith_unfold sep s :
  Py.endswith sep s
  = String.eqb sep s
    || match s with
       | EmptyString => false
       | String _ s' => Py.endswith sep s'
       end.
Proof. by destruct s. Qed.

(** For ['|||'], an occurrence starting inside [a] and running into the
    separator behind it needs [a] to end in a bar. *)
Lemma unmatched_bars a b :
  unmatched "|||" a ("|||" +:+ b) = true
  ↔ Py.contains "|||" a = false ∧ Py.endswith "|" a = false.
Proof.
  induction a as [|c a IH]; [done|].
  rewrite contains_unfold, endswith_unfold. cbn [unmatched].
  rewrite andb_true_iff, IH, negb_true_iff, !orb_false_iff.
  destruct a as [|c2 [|c3 a]]; simpl;
    repeat match goal with
           | |- context [Ascii.eqb ?x ?y] => destruct (Ascii.eqb x y); simpl
           end; tauto.
Qed.

(** For a one-character separator there is no running into it. *)
Lemma unmatched_char c a b :
  unmatched (String c "") a (String c "" +:+ b) = true
  ↔ Py.contains (String c "") a = false.
Proof.
  induction a as [|c' a IH]; [done|].
  rewrite contains_unfold. cbn [unmatched].
  rewrite andb_true_iff, IH, negb_true_iff, orb_false_iff. simpl.
  by rewrite !andb_true_r.
Qed.

End Bars.

(** ** Counting the parts of a split *)

Section Parts.
Implicit Types (s t a b sep : string) (c : Ascii.ascii).

Lemma antitone_add (f : nat → nat) :
  (∀ k, f (S k) ≤ f k) → ∀ k j, f (k + j) ≤ f k.
Proof.
  intros Hf k j. induction j as [|j IH].
  - by rewrite Nat.add_0_r.
  - rewrite Nat.add_succ_r. etrans; [apply Hf|apply IH].
Qed.

Lemma length_split_from_cons sep c s :
  length (Py.split_from sep (String c s) 0)
  = if Py.startswith sep (String c s)
    then S (length (Py.split_from sep s (pred (String.length sep))))
    else length (Py.split_from sep s 0).
Proof.
  cbn [Py.split_from]. destruct (Py.startswith sep (String c s)); [done|].
  destruct (Py.split_from sep s 0) as [|p ps] eqn:E; [|done].
  by apply split_from_nonempty in E.
Qed.

(** Starting the scan later never finds more parts, and starting it less
    than a separator's length later loses at most one. *)
Lemma length_split_from_skip sep s :
  (∀ k, length (Py.split_from sep s (S k))
        ≤ length (Py.split_from sep s k))
  ∧ (∀ k m, m < String.length sep →
        length (Py.split_from sep s k)
        ≤ S (length (Py.split_from sep s (k + m)))).
Proof.
  induction s as [|c s [IH1 IH2]]; [split; intros; simpl; lia|].
  assert (∀ k j, length (Py.split_from sep s (k + j))
                 ≤ length (Py.split_from sep s k)) as IH1'
    by (apply (antitone_add (λ k, length (Py.split_from sep s k))), IH1).
  split.
  - intros [|k]; [|apply IH1].
    rewrite length_split_from_cons. cbn [Py.split_from].
    destruct (Py.startswith sep (String c s)) eqn:Hc; [|done].
    destruct (decide (String.length sep = 0)) as [E0|Hne].
    + rewrite E0. simpl. lia.
    + apply (IH2 0 (pred (String.length sep))). lia.
  - intros [|k] m Hm; [|apply IH2; lia].
    destruct m as [|m]; [simpl; lia|].
    rewrite length_split_from_cons.
    change (Py.split_from sep (String c s) (0 + S m))
      with (Py.split_from sep s m).
    destruct (Py.startswith sep (String c s)).
    + apply le_n_S.
      replace (pred (String.length sep))
        with (m + (pred (String.length sep) - m)) by lia.
      apply IH1'.
    + apply (IH2 0 m). lia.
Qed.

(** Every occurrence of the separator makes a part of its own. *)
Lemma length_split_occurrence sep a b :
  sep ≠ "" →
  S (length (Py.split sep b)) ≤ length (Py.split sep (a +:+ sep +:+ b)).
Proof.
  intros Hsep. unfold Py.split.
  assert (length (Py.split_from sep (a +:+ sep +:+ b) (String.length a + 0))
          ≤ length (Py.split_from sep (a +:+ sep +:+ b) 0)) as Hle.
  { apply (antitone_add
             (λ k, length (Py.split_from sep (a +:+ sep +:+ b) k))
             (proj1 (length_split_from_skip sep _)) 0). }
  rewrite split_from_skip in Hle.
  fold (Py.split sep (sep +:+ b)) in Hle.
  rewrite split_separator in Hle by done. exact Hle.
Qed.

Lemma length_split_pos sep s : 1 ≤ length (Py.split sep s).
Proof.
  unfold Py.split. destruct (Py.split_from sep s 0) eqn:E; [|simpl; lia].
  by apply split_from_nonempty in E.
Qed.

End Parts.

(** ** Identifiers joined with ['|||'] and split again *)

Section JoinedIdentifier.
Implicit Types (doc ticker date : string).

Lemma fetch_too_many self (p1 p2 p3 p4 : string) (ps : list string) fs :
  DownloadingIterable.fetch self (p1 :: p2 :: p3 :: p4 :: ps) fs
  = Raise (ValueError "wrong number of values to unpack (expected 3)").
Proof. done. Qed.

Lemma split_join3_more doc ticker date :
  Py.contains "|||" doc || Py.contains "|||" ticker
  || Py.contains "|||" date = true →
  3 < length (Py.split "|||" (join3 doc ticker date)).
Proof.
  assert ("|||" ≠ "") as Hsep by done.
  pose proof (length_split_occurrence "|||") as Hocc.
  unfold join3.
  intros [[H|H]%orb_true_iff|H]%orb_true_iff;
    destruct (contains_inv _ _ H) as (x & y & ->);
    rewrite ?append_assoc.
  - pose proof (Hocc x (y +:+ "|||" +:+ ticker +:+ "|||" +:+ date) Hsep).
    pose proof (Hocc y (ticker +:+ "|||" +:+ date) Hsep).
    pose proof (Hocc ticker date Hsep).
    pose proof (length_split_pos "|||" date). lia.
  - pose proof (Hocc doc (x +:+ "|||" +:+ y +:+ "|||" +:+ date) Hsep).
    pose proof (Hocc x (y +:+ "|||" +:+ date) Hsep).
    pose proof (Hocc y date Hsep).
    pose proof (length_split_pos "|||" date). lia.
  - pose proof (Hocc doc (ticker +:+ "|||" +:+ x +:+ "|||" +:+ y) Hsep).
    pose proof (Hocc ticker (x +:+ "|||" +:+ y) Hsep).
    pose proof (Hocc x y Hsep).
    pose proof (length_split_pos "|||" y). lia.
Qed.

(** C9, amended. Splitting the joined identifier on ['|||'] gives back
    the triple (docID, first ticker, reportDate) exactly when no field
    contains ['|||'] and neither docID nor the ticker ends in ['|'] (a
    trailing bar runs into the separator behind it).  When a field
    contains ['|||'] the split has more than three parts, and the
    fetcher built from that identifier fails on its three-way
    unpacking before it yields anything. *)
Theorem split_join3 doc ticker date :
  (Py.split "|||" (join3 doc ticker date) = [doc; ticker; date]
   ↔ Py.contains "|||" doc = false
     ∧ Py.contains "|||" ticker = false
     ∧ Py.contains "|||" date = false
     ∧ Py.endswith "|" doc = false
     ∧ Py.endswith "|" ticker = false)
  ∧ (Py.contains "|||" doc || Py.contains "|||" ticker
     || Py.contains "|||" date = true →
     3 < length (Py.split "|||" (join3 doc ticker date))
     ∧ ∀ prefix folder store fs,
         DownloadingIterable.__iter__
           (DownloadingIterable.__init__ [join3 doc ticker date]
              prefix folder store) None fs
         = (Run [] (Some (ValueError
                       "wrong number of values to unpack (expected 3)")),
            fs)).
Proof.
  assert ("|||" ≠ "") as Hsep by done. split.
  - unfold join3. split.
    + intros H.
      apply split_head_inv in H as [Hd H]; [|done].
      symmetry in H. apply split_head_inv in H as [Ht H]; [|done].
      symmetry in H. apply split_single in H; [|done].
      apply unmatched_bars in Hd as [? ?]. apply unmatched_bars in Ht as [? ?].
      done.
    + intros (Hd & Ht & Hr & Hd' & Ht').
      rewrite split_unmatched by (done || by apply unmatched_bars).
      rewrite split_unmatched by (done || by apply unmatched_bars).
      by rewrite (proj2 (split_single "|||" date Hsep) Hr).
  - intros H. pose proof (split_join3_more doc ticker date H) as Hlen.
    split; [done|]. intros prefix folder store fs.
    unfold DownloadingIterable.__iter__, DownloadingIterable.__init__.
    cbn [DownloadingIterable.identifiers].
    rewrite identifiers_shard_no_worker. cbn [map DownloadingIterable.fetch_all].
    destruct (Py.split "|||" (join3 doc ticker date))
      as [|p1 [|p2 [|p3 [|p4 ps]]]]; simpl in Hlen; try lia.
    by rewrite fetch_too_many.
Qed.

End JoinedIdentifier.

Lemma split_join3_witness :
  Py.split "|||" (join3 "0000320193_10K_2020" "AAPL" "2020-10-30")
  = ["0000320193_10K_2020"; "AAPL"; "2020-10-30"]
  ∧ 3 < length (Py.split "|||" (join3 "doc|||x" "AAPL" "2020-10-30")).
Proof.
  split.
  - by apply (split_join3 "0000320193_10K_2020" "AAPL" "2020-10-30").
  - by apply (split_join3 "doc|||x" "AAPL" "2020-10-30").
Defined.

(** No field of ("a|", "b", "c") contains ['|||'], yet the split does not
    give the triple back: the first separator found starts at the bar
    that ends the docID. *)
Lemma split_join3_trailing_bar :
  Py.split "|||" (join3 "a|" "b" "c") = ["a"; "|b"; "c"]
  ∧ ¬ (Py.split "|||" (join3 "a|" "b" "c") = ["a|"; "b"; "c"]
       ↔ Py.contains "|||" "a|" = false
         ∧ Py.contains "|||" "b" = false
         ∧ Py.contains "|||" "c" = false).
Proof.
  split; [reflexivity|]. intros [_ H].
  assert (Py.split "|||" (join3 "a|" "b" "c") = ["a|"; "b"; "c"]) as E
    by (apply H; repeat split; reflexivity).
  vm_compute in E. discriminate E.
Qed.

(** ** The paths of the fetcher *)

Section Paths.
Implicit Types (s t a b path : string) (c : Ascii.ascii).

Lemma append_nonempty_r a b : b ≠ "" → a +:+ b ≠ "".
Proof. intros Hb. destruct a; [done|]. simpl. discriminate. Qed.

Lemma eqb_char_longer c c' s :
  s ≠ "" → String.eqb (String c "") (String c' s) = false.
Proof. intros Hs. destruct s; [done|]. simpl. by destruct (Ascii.eqb c c'). Qed.

(** Whether a string ends in a given character is decided by any
    non-empty tail of it. *)
Lemma endswith_char_append c a b :
  b ≠ "" →
  Py.endswith (String c "") (a +:+ b) = Py.endswith (String c "") b.
Proof.
  intros Hb. induction a as [|c' a IH]; [done|].
  change (String c' a +:+ b) with (String c' (a +:+ b)).
  rewrite endswith_unfold, IH.
  by rewrite eqb_char_longer by by apply append_nonempty_r.
Qed.

Lemma join2_plain path b :
  path ≠ "" → Py.endswith "/" path = false → Py.startswith "/" b = false →
  Py.join2 path b = path +:+ "/" +:+ b.
Proof.
  intros Hp He Hb. unfold Py.join2. rewrite Hb, He.
  by destruct path.
Qed.

Lemma join2_plain_keeps path b :
  b ≠ "" → Py.endswith "/" b = false →
  path +:+ "/" +:+ b ≠ "" ∧ Py.endswith "/" (path +:+ "/" +:+ b) = false.
Proof.
  intros Hb He. split; [by apply append_nonempty_r|].
  rewrite (endswith_char_append _ path ("/" +:+ b)) by done.
  rewrite endswith_unfold. simpl. rewrite He.
  by destruct b.
Qed.

Lemma main_splits_plain split :
  split ∈ main_splits →
  split ≠ "" ∧ Py.startswith "/" split = false
  ∧ Py.endswith "/" split = false.
Proof.
  unfold main_splits. rewrite !elem_of_cons, elem_of_nil.
  intros [->|[->|[->|[]]]]; done.
Qed.

(** The year is what stands before the first ['-'] of the date. *)
Lemma year_of_dashed year rest :
  Py.contains "-" year = false →
  DownloadingIterable.year_of (year +:+ "-" +:+ rest) = Ok year.
Proof.
  intros H. unfold DownloadingIterable.year_of.
  rewrite split_unmatched; [done|done|]. by apply unmatched_char.
Qed.

Lemma year_of_undashed date :
  Py.contains "-" date = false → DownloadingIterable.year_of date = Ok date.
Proof.
  intros H. unfold DownloadingIterable.year_of.
  by rewrite (proj2 (split_single "-" date ltac:(done)) H).
Qed.

(** With plain components the two names are the components joined by
    slashes. *)
Lemma names_plain root split ticker year :
  root ≠ "" → Py.endswith "/" root = false →
  split ∈ main_splits →
  ticker ≠ "" → Py.startswith "/" ticker = false →
  Py.endswith "/" ticker = false →
  DownloadingIterable.remote_name (Py.path_join root [split]) ticker year
  = root +:+ "/" +:+ split +:+ "/" +:+ ticker
    +:+ "/sec_" +:+ year +:+ "_txt.txt"
  ∧ DownloadingIterable.local_name (Py.path_join root [split]) ticker year
    = root +:+ "/" +:+ split +:+ "/" +:+ ticker
      +:+ "/sec_" +:+ year +:+ ".txt".
Proof.
  intros Hr Hre [Hs [Hss Hse]]%main_splits_plain Ht Hts Hte.
  unfold DownloadingIterable.remote_name, DownloadingIterable.local_name,
    Py.path_join. cbn [foldl].
  rewrite (join2_plain root split) by done.
  destruct (join2_plain_keeps root split Hs Hse) as [H1 H1e].
  rewrite (join2_plain _ ticker) by done.
  destruct (join2_plain_keeps (root +:+ "/" +:+ split) ticker Ht Hte)
    as [H2 H2e].
  rewrite !(join2_plain _ ("sec_" +:+ _)) by done.
  by rewrite !append_assoc.
Qed.

(** C6, amended. For roots that are non-empty and do not end in ['/'],
    a split of [main], a ticker that is non-empty and neither starts nor
    ends with ['/'], and a report date whose text before the first ['-']
    is [year]: the fetcher reads the object
    [{input_root}/{split}/{ticker}/sec_{year}_txt.txt], writes it to
    [{staging_root}/{split}/{ticker}/sec_{year}.txt], and yields
    [{text: content}] with the content of that file.  Both names are
    built from the roots, the split, the ticker and the year alone. *)
Theorem fetch_paths (input_root staging_root split doc ticker year rest : string)
    (unique_ids : list string) (store : gmap string string) (fs : staging)
    (content : string) :
  input_root ≠ "" → Py.endswith "/" input_root = false →
  staging_root ≠ "" → Py.endswith "/" staging_root = false →
  split ∈ main_splits →
  ticker ≠ "" → Py.startswith "/" ticker = false →
  Py.endswith "/" ticker = false →
  Py.contains "-" year = false →
  store !! (input_root +:+ "/" +:+ split +:+ "/" +:+ ticker
            +:+ "/sec_" +:+ year +:+ "_txt.txt") = Some content →
  ∃ fs',
    DownloadingIterable.fetch
      (downloading_iter input_root staging_root split unique_ids store)
      [doc; ticker; year +:+ "-" +:+ rest] fs
    = Ok (fs', [("text", content)])
    ∧ files fs' !! (staging_root +:+ "/" +:+ split +:+ "/" +:+ ticker
                    +:+ "/sec_" +:+ year +:+ ".txt") = Some content
    ∧ read_file (staging_root +:+ "/" +:+ split +:+ "/" +:+ ticker
                 +:+ "/sec_" +:+ year +:+ ".txt") fs' = Ok content.
Proof.
  intros Hi Hie Hs Hse Hsplit Ht Hts Hte Hy Hstore.
  destruct (names_plain input_root split ticker year) as [Hremote _];
    [done..|].
  destruct (names_plain staging_root split ticker year) as [_ Hlocal];
    [done..|].
  unfold downloading_iter, DownloadingIterable.__init__,
    DownloadingIterable.fetch.
  cbn [DownloadingIterable.output_folder DownloadingIterable.object_store
       DownloadingIterable.input_folder_prefix].
  rewrite (year_of_dashed year rest Hy). cbn [mbind result_bind].
  rewrite Hremote, Hlocal. unfold download_object. rewrite Hstore.
  cbn [mbind result_bind]. unfold read_file. cbn [files].
  rewrite lookup_insert_eq. eexists. split; [reflexivity|].
  cbn [files]. by rewrite lookup_insert_eq.
Qed.

End Paths.

Lemma fetch_paths_witness :
  ∃ fs',
    DownloadingIterable.fetch
      (downloading_iter "data" "/tmp/tmpx" "train" []
         {[ "data/train/AAPL/sec_2020_txt.txt" := "ANNUAL REPORT" ]})
      ["0000320193_10K_2020"; "AAPL"; "2020-10-30"] (Staging ∅ ∅)
    = Ok (fs', [("text", "ANNUAL REPORT")])
    ∧ files fs' !! "/tmp/tmpx/train/AAPL/sec_2020.txt" = Some "ANNUAL REPORT".
Proof.
  destruct (fetch_paths "data" "/tmp/tmpx" "train" "0000320193_10K_2020"
              "AAPL" "2020" "10-30" []
              {[ "data/train/AAPL/sec_2020_txt.txt" := "ANNUAL REPORT" ]}
              (Staging ∅ ∅) "ANNUAL REPORT")
    as (fs' & Hf & Hl & _); try done.
  - unfold main_splits. rewrite !elem_of_cons. tauto.
  - by exists fs'.
Defined.

(** An input root with a trailing slash: the object read is
    [data/train/AAPL/sec_2020_txt.txt], which is not
    [{input_root}/{split}/{ticker}/sec_{year}_txt.txt]. *)
Lemma remote_name_trailing_slash :
  DownloadingIterable.remote_name
    (DownloadingIterable.input_folder_prefix
       (downloading_iter "data/" "/tmp/tmpx" "train" [] ∅))
    "AAPL" "2020"
  = "data/train/AAPL/sec_2020_txt.txt"
  ∧ DownloadingIterable.remote_name
      (DownloadingIterable.input_folder_prefix
         (downloading_iter "data/" "/tmp/tmpx" "train" [] ∅))
      "AAPL" "2020"
    ≠ "data/" +:+ "/" +:+ "train" +:+ "/" +:+ "AAPL"
      +:+ "/sec_" +:+ "2020" +:+ "_txt.txt".
Proof. split; [reflexivity|]. vm_compute. discriminate. Qed.

(** * Further properties *)

(** ** The shard of one worker *)

Section ShardShape.
Context {A : Type}.
Implicit Types (l identifiers shard : list A) (w W n : nat).

Lemma length_stride l : ∀ w n,
  length (Py.stride w (S n) l) = (length l + n - w) / S n.
Proof.
  induction l as [|x t IH]; intros w n.
  - cbn [Py.stride length]. symmetry. apply Nat.div_small. lia.
  - destruct w as [|k]; cbn [Py.stride pred length].
    + rewrite IH. replace (S (length t) + n - 0) with (length t + 1 * S n) by lia.
      rewrite Nat.div_add by lia. replace (length t + n - n) with (length t) by lia.
      lia.
    + rewrite IH. f_equal.
Qed.

Lemma stride_sublist l : ∀ w n, Py.stride w n l `sublist_of` l.
Proof.
  induction l as [|x t IH]; intros w n; simpl; [constructor|].
  destruct w; [apply sublist_skip|apply sublist_cons]; apply IH.
Qed.

Lemma identifiers_shard_inv w W identifiers shard :
  DownloadingIterable.identifiers_shard (Some (WorkerInfo w W)) identifiers
  = Ok shard →
  ∃ n, W = S n ∧ shard = Py.stride w (S n) identifiers.
Proof.
  unfold DownloadingIterable.identifiers_shard, Py.slice_from_step. simpl.
  destruct W as [|n]; [done|]. intros [= <-]. by exists n.
Qed.

(** Whenever a worker gets a shard, its j-th entry is the identifier at
    position [w + j * W], so the shard keeps the order of the list. *)
Theorem shard_positions w W identifiers shard :
  DownloadingIterable.identifiers_shard (Some (WorkerInfo w W)) identifiers
  = Ok shard →
  (∀ j, shard !! j = identifiers !! (w + j * W))
  ∧ shard `sublist_of` identifiers.
Proof.
  intros (n & -> & ->)%identifiers_shard_inv. split.
  - intros j. apply stride_lookup.
  - apply stride_sublist.
Qed.

(** The shards are balanced: worker [w < W] gets
    [(L + W - 1 - w) / W] identifiers, which is [L / W] or one more. *)
Theorem shard_sizes_balanced w W identifiers shard :
  w < W →
  DownloadingIterable.identifiers_shard (Some (WorkerInfo w W)) identifiers
  = Ok shard →
  length shard = (length identifiers + W - 1 - w) / W
  ∧ length identifiers / W ≤ length shard ≤ length identifiers / W + 1.
Proof.
  intros Hw (n & -> & ->)%identifiers_shard_inv.
  rewrite length_stride.
  replace (length identifiers + S n - 1 - w) with (length identifiers + n - w)
    by lia.
  split; [done|]. split.
  - apply Nat.Div0.div_le_mono. lia.
  - etrans; [apply (Nat.Div0.div_le_mono _ (length identifiers + 1 * S n)); lia|].
    rewrite Nat.div_add by lia. lia.
Qed.

(** A worker whose index is past the end of the list gets nothing. *)
Theorem shard_empty_past_end w W identifiers shard :
  length identifiers ≤ w →
  DownloadingIterable.identifiers_shard (Some (WorkerInfo w W)) identifiers
  = Ok shard →
  shard = [].
Proof.
  intros Hw (n & -> & ->)%identifiers_shard_inv. by apply stride_nil_ge.
Qed.

End ShardShape.

Lemma shard_positions_witness :
  DownloadingIterable.identifiers_shard (Some (WorkerInfo 1 3))
    ["a"; "b"; "c"; "d"; "e"] = Ok ["b"; "e"]
  ∧ ["b"; "e"] !! 1 = ["a"; "b"; "c"; "d"; "e"] !! (1 + 1 * 3).
Proof.
  split; [reflexivity|].
  by apply (shard_positions 1 3 ["a"; "b"; "c"; "d"; "e"] ["b"; "e"]).
Defined.

Lemma shard_sizes_balanced_witness :
  1 < 3
  ∧ length ["b"; "e"] = (length ["a"; "b"; "c"; "d"; "e"] + 3 - 1 - 1) / 3.
Proof.
  split; [lia|].
  by apply (shard_sizes_balanced 1 3 ["a"; "b"; "c"; "d"; "e"] ["b"; "e"]);
    [lia|reflexivity].
Defined.

Lemma shard_empty_past_end_witness :
  length ["a"; "b"] ≤ 5
  ∧ DownloadingIterable.identifiers_shard (Some (WorkerInfo 5 8)) ["a"; "b"]
    = Ok [].
Proof.
  split; [simpl; lia|].
  rewrite <- (shard_empty_past_end 5 8 ["a"; "b"] (Py.stride 5 8 ["a"; "b"]));
    [reflexivity|simpl; lia|reflexivity].
Defined.

(** ** The resolver as a function of the records *)

Section ResolverShape.
Implicit Types (data more : list example) (seen : gset string)
  (ids : list string).

(** The pass in closed form: all or nothing. *)
Lemma unique_identifiers_closed data :
  unique_identifiers data
  = if decide (Forall (λ ex, tickers ex ≠ []) data)
    then Ok (unique_from ∅ (omap identifier_of data))
    else Raise (IndexError "list index out of range").
Proof.
  unfold unique_identifiers. case_decide as Hall.
  - destruct (dataset_map_all data Hall) as (data' & -> & Hcol).
    simpl. unfold dataset_unique. by rewrite Hcol.
  - rewrite dataset_map_abort; [done|].
    apply not_Forall_Exists in Hall; [|intros ex; apply _].
    eapply Exists_impl; [exact Hall|]. simpl. intros ex Hex.
    destruct (decide (tickers ex = [])) as [|Hne]; [done|]. by destruct Hex.
Qed.

Lemma length_omap_le {B C} (f : B → option C) (l : list B) :
  length (omap f l) ≤ length l.
Proof.
  induction l as [|x l IH]; [done|]. cbn [omap list_omap].
  destruct (f x); simpl; lia.
Qed.

Lemma unique_identifiers_inv data ids :
  unique_identifiers data = Ok ids →
  Forall (λ ex, tickers ex ≠ []) data
  ∧ ids = unique_from ∅ (omap identifier_of data).
Proof.
  rewrite unique_identifiers_closed. case_decide; [|done].
  by intros [= <-].
Qed.

Lemma unique_from_sublist values : ∀ seen,
  unique_from seen values `sublist_of` values.
Proof.
  induction values as [|v values IH]; intros seen; simpl; [constructor|].
  case_decide; [apply sublist_cons|apply sublist_skip]; apply IH.
Qed.

Lemma unique_from_app values values' : ∀ seen,
  ∃ seen', unique_from seen (values ++ values')
           = unique_from seen values ++ unique_from seen' values'.
Proof.
  induction values as [|v values IH]; intros seen; simpl; [by exists seen|].
  case_decide.
  - apply IH.
  - destruct (IH ({[v]} ∪ seen)) as [seen' ->]. by exists seen'.
Qed.

Lemma unique_from_NoDup_id values : ∀ seen,
  NoDup values → (∀ v, v ∈ values → v ∉ seen) →
  unique_from seen values = values.
Proof.
  induction values as [|v values IH]; intros seen Hnd Hseen; simpl; [done|].
  inversion Hnd as [|? ? Hv Hnd']; subst.
  rewrite decide_False by (apply Hseen; by left). f_equal.
  apply IH; [done|]. intros v' Hv'.
  rewrite not_elem_of_union, elem_of_singleton. split.
  - intros ->. done.
  - apply Hseen. by right.
Qed.

(** The identifiers are resolved whatever the order of the records: a
    rearranged dataset gives the same identifiers, rearranged. *)
Theorem unique_identifiers_permutation data data' ids :
  data ≡ₚ data' →
  unique_identifiers data = Ok ids →
  ∃ ids', unique_identifiers data' = Ok ids' ∧ ids ≡ₚ ids'.
Proof.
  intros Hperm [Hall ->]%unique_identifiers_inv.
  rewrite unique_identifiers_closed, decide_True by by rewrite <- Hperm.
  eexists. split; [reflexivity|].
  apply NoDup_Permutation; [apply NoDup_unique_from..|].
  intros i. rewrite !elem_of_unique_from, !list_elem_of_omap.
  split; intros [(ex & Hex & Hi) Hn]; (split; [|done]);
    exists ex; (split; [|done]); [by rewrite <- Hperm|by rewrite Hperm].
Qed.

(** The identifiers keep the order in which the records first show
    them: they are a sub-sequence of the per-record identifiers, no more
    than there are records, and records added at the end leave the
    identifiers resolved so far in front, unchanged. *)
Theorem unique_identifiers_stable data more ids ids' :
  unique_identifiers data = Ok ids →
  unique_identifiers (data ++ more) = Ok ids' →
  ids `sublist_of` omap identifier_of data
  ∧ length ids ≤ length data
  ∧ ids `prefix_of` ids'.
Proof.
  intros [Hall ->]%unique_identifiers_inv [Hall' ->]%unique_identifiers_inv.
  split; [apply unique_from_sublist|]. split.
  - etrans; [apply sublist_length, unique_from_sublist|].
    apply length_omap_le.
  - rewrite omap_app.
    destruct (unique_from_app (omap identifier_of data)
                (omap identifier_of more) ∅) as [seen' ->].
    by eexists.
Qed.

(** Records that already have distinct identifiers come out one for
    one, in their order. *)
Theorem unique_identifiers_distinct data ids :
  NoDup (omap identifier_of data) →
  unique_identifiers data = Ok ids →
  ids = omap identifier_of data ∧ length ids = length data.
Proof.
  intros Hnd [Hall ->]%unique_identifiers_inv.
  rewrite unique_from_NoDup_id by (done || intros; apply not_elem_of_empty).
  split; [done|].
  clear Hnd. induction Hall as [|ex data Hex _ IH]; [done|].
  cbn [omap list_omap]. unfold identifier_of at 1.
  destruct (tickers ex); [done|]. simpl. f_equal. exact IH.
Qed.

(** Only the document id, the first ticker and the report date of a
    record count: datasets that agree on these, record by record, resolve
    alike, whatever their other tickers. *)
Theorem unique_identifiers_first_ticker data data' :
  Forall2 (λ ex ex', docID ex = docID ex'
                     ∧ head (tickers ex) = head (tickers ex')
                     ∧ reportDate ex = reportDate ex') data data' →
  unique_identifiers data = unique_identifiers data'.
Proof.
  intros H. rewrite !unique_identifiers_closed.
  assert (omap identifier_of data = omap identifier_of data'
          ∧ (Forall (λ ex, tickers ex ≠ []) data
             ↔ Forall (λ ex, tickers ex ≠ []) data')) as [-> Hiff].
  { induction H as [|ex ex' data data' (Hd & Ht & Hr) _ [IHc IHf]]; [done|].
    rewrite !Forall_cons, IHf. cbn [omap list_omap]. rewrite IHc.
    unfold identifier_of. rewrite Hd, Hr.
    destruct (tickers ex), (tickers ex'); simplify_eq/=;
      (split; [done|]); split; intros [? ?]; done. }
  by repeat case_decide; try tauto.
Qed.

End ResolverShape.

(** ** generate_samples on arbitrary loaders *)

Section SamplesShape.
Context {V : Type}.
Implicit Types (b : batch V) (loader : list (batch V)) (k n : Z)
  (idxs : list nat).

Lemma sample_at_short b idx :
  Exists (λ kv, length kv.2 ≤ idx) b →
  sample_at b idx = Raise (IndexError "list index out of range").
Proof.
  unfold sample_at. induction 1 as [[key column] b Hle|[key column] b _ IH];
    simpl in *.
  - by rewrite (lookup_ge_None_2 column idx Hle).
  - destruct (column !! idx); simpl; [|done]. by rewrite IH.
Qed.

Lemma covering_rows b :
  covering b →
  Forall (λ idx, sample_at b idx = Ok (row b idx)) (seq 0 (batch_size b)).
Proof.
  intros [_ Hlen]. apply Forall_forall. intros idx Hidx.
  apply elem_of_seq in Hidx. apply sample_at_row.
  eapply Forall_impl; [exact Hlen|]. simpl. intros kv Hkv. lia.
Qed.

(** Without a limit the counter plays no part. *)
Lemma batch_samples_none_counter b idxs : ∀ n,
  ∃ ys, (batch_samples None b idxs n
         = (ys, Exhausted (n + Z.of_nat (length ys)))
         ∧ ∀ n', batch_samples None b idxs n'
                 = (ys, Exhausted (n' + Z.of_nat (length ys))))
        ∨ ∃ e, ∀ n', batch_samples None b idxs n' = (ys, Failed e).
Proof.
  induction idxs as [|idx idxs IH]; intros n.
  - exists []. left. simpl. split; [|intros n']; do 2 f_equal; lia.
  - cbn [batch_samples]. destruct (sample_at b idx) as [smp|e].
    + destruct (IH (n + 1)%Z) as [ys [[_ Hall]|[e Hall]]].
      * exists (smp :: ys). left.
        split; [|intros n']; rewrite Hall; cbn [length]; do 2 f_equal; lia.
      * exists (smp :: ys). right. exists e. intros n'. by rewrite Hall.
    + exists []. right. by exists e.
Qed.

Lemma generate_samples_from_none_counter loader : ∀ n n',
  generate_samples_from loader None n = generate_samples_from loader None n'.
Proof.
  induction loader as [|b loader IH]; intros n n'; [done|].
  cbn [generate_samples_from]. destruct b as [|[key0 column0] b]; [done|].
  destruct (batch_samples_none_counter ((key0, column0) :: b)
              (seq 0 (length column0)) n) as [ys [[_ Hall]|[e Hall]]].
  - rewrite (Hall n), (Hall n').
    by rewrite (IH _ (n' + Z.of_nat (length ys))%Z).
  - by rewrite (Hall n), (Hall n').
Qed.

Lemma generate_samples_from_app loader loader' : ∀ n,
  generate_samples_from (loader ++ loader') None n
  = match raised (generate_samples_from loader None n) with
    | None => yield_first (yielded (generate_samples_from loader None n))
                (generate_samples_from loader' None n)
    | Some e => generate_samples_from loader None n
    end.
Proof.
  induction loader as [|b loader IH]; intros n.
  - simpl. unfold yield_first. simpl.
    by destruct (generate_samples_from loader' None n).
  - cbn [app generate_samples_from].
    destruct b as [|[key0 column0] b]; [done|].
    destruct (batch_samples_none_counter ((key0, column0) :: b)
                (seq 0 (length column0)) n) as [ys [[Hn _]|[e Hall]]];
      [rewrite Hn|by rewrite (Hall n)].
    rewrite IH. cbn [raised yielded].
    rewrite (generate_samples_from_none_counter loader _ n).
    rewrite (generate_samples_from_none_counter loader' _ n).
    destruct (generate_samples_from loader None n) as [ys1 [e|]];
      cbn [raised yielded]; [done|].
    unfold yield_first. cbn [raised yielded]. by rewrite app_assoc.
Qed.

(** Two loaders one after the other, without a limit: the second is read
    when, and only when, the first ends without an exception. *)
Theorem generate_samples_app loader loader' :
  generate_samples (loader ++ loader') None
  = match raised (generate_samples loader None) with
    | None => yield_first (yielded (generate_samples loader None))
                (generate_samples loader' None)
    | Some e => generate_samples loader None
    end.
Proof. apply generate_samples_from_app. Qed.

End SamplesShape.

Section SamplesLimit.
Context {V : Type}.
Implicit Types (b : batch V) (loader : list (batch V)) (k n : Z)
  (idxs : list nat).

(** One batch under a limit against the same batch without: the limit
    only cuts the yields short, never past [k], and it brings no
    exception of its own. *)
Lemma batch_samples_limit_cases b k idxs : ∀ n n',
  let r := batch_samples (Some k) b idxs n in
  let r' := batch_samples None b idxs n' in
  r.1 `prefix_of` r'.1
  ∧ ((n ≤ k)%Z → (n + Z.of_nat (length r.1) ≤ k)%Z)
  ∧ (r.2 = Returned
     ∨ r.1 = r'.1
       ∧ ((∃ e, r.2 = Failed e ∧ r'.2 = Failed e)
          ∨ r.2 = Exhausted (n + Z.of_nat (length r.1))
            ∧ r'.2 = Exhausted (n' + Z.of_nat (length r.1)))).
Proof.
  induction idxs as [|idx idxs IH]; intros n n'; cbn zeta.
  - simpl. split; [done|]. split; [lia|]. right. split; [done|]. right.
    split; f_equal; lia.
  - cbn [batch_samples]. case_bool_decide as Hnk.
    + simpl. split; [apply prefix_nil|]. split; [lia|]. by left.
    + destruct (sample_at b idx) as [smp|e].
      * specialize (IH (n + 1)%Z (n' + 1)%Z). cbn zeta in IH.
        destruct (batch_samples (Some k) b idxs (n + 1)) as [ys ex].
        destruct (batch_samples None b idxs (n' + 1)) as [ys' ex'].
        simpl in *. destruct IH as (Hpre & Hle & Hex). split; [|split].
        -- by apply prefix_cons.
        -- lia.
        -- destruct Hex as [->|[-> [(e & -> & ->)|[-> ->]]]];
             [by left|right; split; [done|]..].
           ++ left. by exists e.
           ++ right. split; f_equal; lia.
      * simpl. split; [done|]. split; [lia|]. right. split; [done|].
        left. by exists e.
Qed.

Lemma generate_samples_from_limit_cases loader k : ∀ n n',
  let r := generate_samples_from loader (Some k) n in
  let r' := generate_samples_from loader None n' in
  yielded r `prefix_of` yielded r'
  ∧ ((n ≤ k)%Z → (n + Z.of_nat (length (yielded r)) ≤ k)%Z)
  ∧ (raised r = None ∨ raised r = raised r').
Proof.
  induction loader as [|b loader IH]; intros n n'; cbn zeta.
  - simpl. split; [done|]. split; [lia|]. by left.
  - cbn [generate_samples_from]. destruct b as [|[key0 column0] b].
    { simpl. split; [done|]. split; [lia|]. by right. }
    pose proof (batch_samples_limit_cases ((key0, column0) :: b) k
                  (seq 0 (length column0)) n n') as H. cbn zeta in H.
    destruct (batch_samples (Some k) ((key0, column0) :: b)
                (seq 0 (length column0)) n) as [ys ex].
    destruct (batch_samples None ((key0, column0) :: b)
                (seq 0 (length column0)) n') as [ys' ex'].
    simpl in H. destruct H as (Hpre & Hle & Hex).
    destruct Hex as [->|[-> [(e & -> & ->)|[-> ->]]]].
    + destruct ex' as [m'| |e']; cbn [yielded raised].
      * split; [by apply prefix_app_r|]. split; [done|]. by left.
      * split; [done|]. split; [done|]. by left.
      * split; [done|]. split; [done|]. by left.
    + cbn [yielded raised]. split; [done|]. split; [done|]. by right.
    + specialize (IH (n + Z.of_nat (length ys'))%Z
                     (n' + Z.of_nat (length ys'))%Z). cbn zeta in IH.
      destruct IH as (Hpre' & Hle' & Hex'). cbn [yielded raised].
      split; [by apply prefix_app|]. split; [|done].
      rewrite length_app. lia.
Qed.

(** Whatever the loader, a limit only cuts the stream short: the samples
    yielded under a limit are the first of those yielded without one, no
    more than [k] of them for [k >= 0], and an exception under the limit
    is one that the unlimited run ends in too. *)
Theorem generate_samples_limit_prefix loader k :
  yielded (generate_samples loader (Some k))
  `prefix_of` yielded (generate_samples loader None)
  ∧ ((0 ≤ k)%Z →
     (Z.of_nat (length (yielded (generate_samples loader (Some k)))) ≤ k)%Z)
  ∧ (raised (generate_samples loader (Some k)) = None
     ∨ raised (generate_samples loader (Some k))
       = raised (generate_samples loader None)).
Proof.
  unfold generate_samples.
  destruct (generate_samples_from_limit_cases loader k 0 0) as (H1 & H2 & H3).
  split; [done|]. split; [|done]. intros Hk. specialize (H2 Hk). lia.
Qed.

End SamplesLimit.

Section SamplesEdges.
Context {V : Type}.
Implicit Types (b : batch V) (loader : list (batch V)) (k n : Z)
  (idxs : list nat).

Lemma length_rows b : length (rows b) = batch_size b.
Proof. unfold rows. by rewrite length_map, length_seq. Qed.

Lemma generate_samples_from_covering loader : ∀ n,
  Forall covering loader →
  generate_samples_from loader None n = Run (all_rows loader) None.
Proof.
  induction loader as [|b loader IH]; intros n Hc; [done|].
  inversion Hc as [|? ? Hb Hc']; subst.
  pose proof (covering_rows b Hb) as Hrows.
  destruct b as [|[key0 column0] b]; [by destruct Hb|].
  cbn [generate_samples_from].
  change (length column0) with (batch_size ((key0, column0) :: b)).
  rewrite (batch_samples_all _ _ _ Hrows), (IH _ Hc'). done.
Qed.

(** Batches that cover, then anything, under a limit. *)
Lemma generate_samples_from_covering_limit loader loader' k : ∀ n,
  Forall covering loader →
  generate_samples_from (loader ++ loader') (Some k) n
  = if decide (n ≤ k < n + Z.of_nat (length (all_rows loader)))%Z
    then Run (take (Z.to_nat (k - n)) (all_rows loader)) None
    else yield_first (all_rows loader)
           (generate_samples_from loader' (Some k)
              (n + Z.of_nat (length (all_rows loader)))).
Proof.
  induction loader as [|b loader IH]; intros n Hc.
  { change (all_rows (@nil (batch V))) with (@nil (sample V)).
    cbn [app length]. rewrite decide_False by lia. rewrite Z.add_0_r.
    unfold yield_first. by destruct (generate_samples_from loader' (Some k) n). }
  inversion Hc as [|? ? Hb Hc']; subst.
  pose proof (covering_rows b Hb) as Hrows.
  destruct b as [|[key0 column0] b]; [by destruct Hb|].
  cbn [app generate_samples_from].
  change (length column0) with (batch_size ((key0, column0) :: b)).
  rewrite (batch_samples_limit _ _ _ _ Hrows), length_seq.
  unfold all_rows. cbn [map concat]. fold (all_rows loader).
  pose proof (length_rows ((key0, column0) :: b)) as Hlen.
  fold (rows ((key0, column0) :: b)).
  set (bs := batch_size ((key0, column0) :: b)) in *.
  rewrite length_app, Hlen.
  case_decide as Hin.
  - rewrite decide_True by lia. f_equal. rewrite take_app_le by lia. done.
  - rewrite (IH _ Hc').
    destruct (decide (n + Z.of_nat bs ≤ k
                      < n + Z.of_nat bs + Z.of_nat (length (all_rows loader)))%Z).
    + rewrite decide_True by lia. cbn [yielded raised]. f_equal.
      rewrite take_app_ge by lia. do 2 f_equal. lia.
    + rewrite decide_False by lia. unfold yield_first. cbn [yielded raised].
      replace (n + Z.of_nat (bs + length (all_rows loader)))%Z
        with (n + Z.of_nat bs + Z.of_nat (length (all_rows loader)))%Z by lia.
      by rewrite app_assoc.
Qed.

(** Columns longer than the first are cut to its length: when no column
    of any batch is shorter than the batch's first, the generator ends
    without an exception and yields, per batch, as many rows as the first
    column is long, or the first [k] of them all under a limit
    [k >= 0]. *)
Theorem generate_samples_first_column loader :
  Forall covering loader →
  generate_samples loader None = Run (all_rows loader) None
  ∧ length (all_rows loader) = sum_list (map batch_size loader)
  ∧ ∀ k, (0 ≤ k)%Z →
      generate_samples loader (Some k)
      = Run (take (Z.to_nat k) (all_rows loader)) None.
Proof.
  intros Hc. unfold generate_samples. split; [|split].
  - by apply generate_samples_from_covering.
  - apply length_all_rows.
  - intros k Hk.
    pose proof (generate_samples_from_covering_limit loader [] k 0 Hc) as H.
    rewrite app_nil_r in H. rewrite H, Z.sub_0_r. clear H.
    case_decide as Hin; [done|].
    unfold yield_first. simpl. rewrite app_nil_r.
    by rewrite take_ge by lia.
Qed.

(** An empty dictionary among the batches fails [keys[0]]: the samples
    of the batches before it are yielded and the generator ends in an
    [IndexError].  Under a limit [k >= 0] it does so as soon as the
    earlier batches hold no more than [k] samples, exactly [k]
    included; with more than [k] it returns before it gets there. *)
Theorem generate_samples_empty_batch loader loader' :
  Forall covering loader →
  generate_samples (loader ++ [] :: loader') None
  = Run (all_rows loader) (Some (IndexError "list index out of range"))
  ∧ ∀ k, (0 ≤ k)%Z →
      generate_samples (loader ++ [] :: loader') (Some k)
      = if decide (k < Z.of_nat (length (all_rows loader)))%Z
        then Run (take (Z.to_nat k) (all_rows loader)) None
        else Run (all_rows loader)
               (Some (IndexError "list index out of range")).
Proof.
  intros Hc. unfold generate_samples. split.
  - rewrite generate_samples_from_app, generate_samples_from_covering by done.
    unfold yield_first. simpl. by rewrite app_nil_r.
  - intros k Hk. rewrite generate_samples_from_covering_limit by done.
    rewrite Z.sub_0_r. case_decide; [by rewrite decide_True by lia|].
    rewrite decide_False by lia. unfold yield_first. simpl.
    by rewrite app_nil_r.
Qed.

Lemma batch_samples_failure b e : ∀ idxs idx idxs' n,
  Forall (λ idx, sample_at b idx = Ok (row b idx)) idxs →
  sample_at b idx = Raise e →
  batch_samples None b (idxs ++ idx :: idxs') n = (map (row b) idxs, Failed e).
Proof.
  induction idxs as [|i idxs IH]; intros idx idxs' n Hall He.
  - simpl. by rewrite He.
  - inversion Hall as [|? ? Hi Hall']; subst.
    cbn [app batch_samples]. rewrite Hi, (IH _ _ _ Hall' He). done.
Qed.

(** A column shorter than the first fails [v[idx]]: with [m] the length
    of the shortest column of a batch, the generator yields the batch's
    first [m] rows after those of the batches before, ends in an
    [IndexError], and reads nothing further. *)
Theorem generate_samples_short_column loader b loader' (m : nat) :
  Forall covering loader →
  Forall (λ kv, m ≤ length kv.2) b →
  Exists (λ kv, length kv.2 = m) b →
  m < batch_size b →
  generate_samples (loader ++ b :: loader') None
  = Run (all_rows loader ++ map (row b) (seq 0 m))
      (Some (IndexError "list index out of range")).
Proof.
  intros Hc Hall Hex Hm. unfold generate_samples.
  rewrite generate_samples_from_app, generate_samples_from_covering by done.
  cbn [raised yielded]. unfold yield_first. cbn [generate_samples_from].
  destruct b as [|[key0 column0] b]; [simpl in Hm; lia|].
  change (length column0) with (batch_size ((key0, column0) :: b)).
  replace (seq 0 (batch_size ((key0, column0) :: b)))
    with (seq 0 m ++ m :: seq (S m) (batch_size ((key0, column0) :: b) - S m)).
  2:{ change (m :: seq (S m) (batch_size ((key0, column0) :: b) - S m))
        with (seq m (S (batch_size ((key0, column0) :: b) - S m))).
      change (seq m) with (seq (0 + m)). rewrite <- seq_app. f_equal. lia. }
  rewrite (batch_samples_failure _ (IndexError "list index out of range")).
  - done.
  - apply Forall_forall. intros idx Hidx%elem_of_seq. apply sample_at_row.
    eapply Forall_impl; [exact Hall|]. simpl. intros kv Hkv. lia.
  - apply sample_at_short. eapply Exists_impl; [exact Hex|].
    simpl. intros kv Hkv. lia.
Qed.

End SamplesEdges.

(** ** Heads of splits *)

Section SplitHead.
Implicit Types (s t p sep : string) (c : Ascii.ascii).

(** The first part of a split holds no separator, and the string is that
    part alone or that part, a separator, and the string that the other
    parts are split from. *)
Lemma split_head sep s :
  sep ≠ "" →
  ∃ p ps,
    Py.split sep s = p :: ps
    ∧ Py.contains sep p = false
    ∧ (ps = [] ∧ s = p
       ∨ ∃ rest, s = p +:+ sep +:+ rest ∧ ps = Py.split sep rest).
Proof.
  intros Hsep. induction s as [|c s (p & ps & Hs & Hp & Hcase)].
  - exists "", []. split; [done|]. split; [by destruct sep|]. by left.
  - destruct (Py.startswith sep (String c s)) eqn:Hc.
    + destruct (startswith_inv _ _ Hc) as [t Ht]. rewrite Ht.
      exists "", (Py.split sep t). rewrite split_separator by done.
      split; [done|]. split; [by destruct sep|]. right. by exists t.
    + exists (String c p), ps. rewrite split_cons, Hs by done.
      split; [done|]. split.
      * rewrite contains_unfold, Hp, orb_false_r.
        destruct (Py.startswith sep (String c p)) eqn:Hcp; [|done].
        destruct Hcase as [[_ ->]|[rest [-> _]]]; [congruence|].
        apply (startswith_weaken _ _ (sep +:+ rest)) in Hcp.
        simpl in Hcp. congruence.
      * destruct Hcase as [[-> ->]|[rest [-> ->]]]; [by left|].
        right. by exists rest.
Qed.

(** [report_date.split('-')[0]] never fails: the year is the date up to
    its first dash, or the whole date when it has none. *)
Theorem year_of_text_before_dash (report_date : string) :
  ∃ year,
    DownloadingIterable.year_of report_date = Ok year
    ∧ Py.contains "-" year = false
    ∧ (report_date = year ∧ Py.contains "-" report_date = false
       ∨ ∃ rest, report_date = year +:+ "-" +:+ rest).
Proof.
  destruct (split_head "-" report_date) as (p & ps & Hs & Hp & Hcase); [done|].
  exists p. unfold DownloadingIterable.year_of. rewrite Hs.
  split; [done|]. split; [done|].
  destruct Hcase as [[_ ->]|[rest [-> _]]]; [by left|]. right. by exists rest.
Qed.

End SplitHead.

(** ** Splitting and joining again *)

Section SplitJoin.
Implicit Types (s t p sep : string) (c : Ascii.ascii).

Lemma join_with_cons sep p q qs :
  join_with sep (p :: q :: qs) = p +:+ sep +:+ join_with sep (q :: qs).
Proof. done. Qed.

Lemma split_join_bounded sep : sep ≠ "" → ∀ n s,
  String.length s ≤ n →
  Forall (λ p, Py.contains sep p = false) (Py.split sep s)
  ∧ join_with sep (Py.split sep s) = s.
Proof.
  intros Hsep. induction n as [|n IH]; intros s Hn;
    destruct (split_head sep s Hsep) as (p & ps & Hs & Hp & Hcase);
    rewrite Hs;
    (destruct Hcase as [[-> ->]|[rest [-> ->]]];
       [by split; [repeat constructor|]|]).
  - rewrite !length_append in Hn. destruct sep; [done|]. simpl in Hn. lia.
  - destruct (IH rest) as [Hall Hjoin].
    { rewrite !length_append in Hn. destruct sep; [done|]. simpl in Hn. lia. }
    split; [by constructor|].
    destruct (Py.split sep rest) as [|q qs] eqn:E.
    { by apply split_from_nonempty in E. }
    by rewrite join_with_cons, Hjoin.
Qed.

(** What [__init__] keeps of an identifier loses nothing: the parts of
    each identifier hold no ['|||'], there is at least one, and joined
    with ['|||'] they are the identifier again. *)
Theorem init_parts_rejoin (identifiers : list string)
    (prefix folder : string) (store : gmap string string) :
  Forall2 (λ identifier parts,
             parts ≠ []
             ∧ Forall (λ p, Py.contains "|||" p = false) parts
             ∧ join_with "|||" parts = identifier)
          identifiers
          (DownloadingIterable.identifiers
             (DownloadingIterable.__init__ identifiers prefix folder store)).
Proof.
  unfold DownloadingIterable.__init__. cbn [DownloadingIterable.identifiers].
  apply Forall2_fmap_r, Forall_Forall2_diag, Forall_forall.
  intros s _.
  destruct (split_join_bounded "|||" ltac:(done) (String.length s) s)
    as [Hall Hjoin]; [done|].
  split; [apply split_from_nonempty|]. done.
Qed.

End SplitJoin.

(** ** The fetcher on any identifiers *)

Section FetchShape.
Implicit Types (self : DownloadingIterable.t) (fs : staging)
  (shard : list (list string)) (identifier : list string).

Lemma year_of_total (report_date : string) :
  ∃ year, DownloadingIterable.year_of report_date = Ok year.
Proof.
  unfold DownloadingIterable.year_of.
  destruct (Py.split "-" report_date) as [|y ys] eqn:E; [|by exists y].
  by apply split_from_nonempty in E.
Qed.

Lemma fetch_found self identifier content fs :
  object_of self identifier = Some content →
  ∃ fs', DownloadingIterable.fetch self identifier fs
         = Ok (fs', text_record content).
Proof.
  destruct identifier as [|doc [|ticker [|date [|? ?]]]]; try done.
  unfold object_of, DownloadingIterable.fetch.
  destruct (DownloadingIterable.year_of date) as [year|]; [|done].
  intros Hobj. cbn [mbind result_bind]. unfold download_object.
  rewrite Hobj. cbn [mbind result_bind]. unfold read_file. cbn [files].
  rewrite lookup_insert_eq. by eexists.
Qed.

(** Fetching an identifier triple succeeds exactly when its object is in
    the store.  Then the text yielded is the object's content, the file
    written is the local name of (ticker, year), and every other staged
    file is as before; otherwise the failure names the missing object and
    the staging area is not returned.  The document id plays no part. *)
Theorem fetch_outcome self (doc ticker report_date : string) fs :
  ∃ year,
    DownloadingIterable.year_of report_date = Ok year
    ∧ match DownloadingIterable.object_store self
            !! DownloadingIterable.remote_name
                 (DownloadingIterable.input_folder_prefix self) ticker year
      with
      | Some content =>
          ∃ fs',
            DownloadingIterable.fetch self [doc; ticker; report_date] fs
            = Ok (fs', [("text", content)])
            ∧ files fs'
              = <[DownloadingIterable.local_name
                    (DownloadingIterable.output_folder self) ticker year
                  := content]> (files fs)
            ∧ dirs fs ⊆ dirs fs'
      | None =>
          DownloadingIterable.fetch self [doc; ticker; report_date] fs
          = Raise (FileNotFoundError
                     (DownloadingIterable.remote_name
                        (DownloadingIterable.input_folder_prefix self)
                        ticker year))
      end.
Proof.
  destruct (year_of_total report_date) as [year Hy]. exists year.
  split; [done|]. unfold DownloadingIterable.fetch. rewrite Hy.
  cbn [mbind result_bind]. unfold download_object.
  destruct (DownloadingIterable.object_store self !! _) as [content|];
    [|done].
  cbn [mbind result_bind]. unfold read_file. cbn [files].
  rewrite lookup_insert_eq. eexists. split; [reflexivity|].
  split; [done|]. cbn [dirs makedirs]. apply union_subseteq_r.
Qed.




Lemma fetch_all_found self shard : ∀ fs,
  Forall (λ identifier, is_Some (object_of self identifier)) shard →
  ∃ fs', DownloadingIterable.fetch_all self shard fs
         = (Run (map text_record (omap (object_of self) shard)) None, fs').
Proof.
  induction shard as [|identifier shard IH]; intros fs Hall.
  - by exists fs.
  - inversion Hall as [|? ? [content Hc] Hall']; subst.
    destruct (fetch_found self identifier content fs Hc) as [fs1 Hf].
    destruct (IH fs1 Hall') as [fs' Hrec].
    exists fs'. cbn [DownloadingIterable.fetch_all omap list_omap].
    by rewrite Hf, Hrec, Hc.
Qed.

Lemma Forall_stride {A} (P : A → Prop) (l : list A) : ∀ w n,
  Forall P l → Forall P (Py.stride w n l).
Proof.
  induction l as [|x t IH]; intros w n Hall; simpl; [done|].
  inversion Hall; subst. destruct w; [constructor|]; auto.
Qed.

Lemma concat_map_distr {A B C} (F : C → list A) (h : list A → list B)
    (l : list C) :
  h [] = [] → (∀ a b, h (a ++ b) = h a ++ h b) →
  concat (map (λ w, h (F w)) l) = h (concat (map F l)).
Proof.
  intros Hnil Happ. induction l as [|x l IH]; simpl; [done|].
  by rewrite Happ, IH.
Qed.

(** With every object in the store, the workers together yield the text
    of every identifier exactly once: each worker ends without an
    exception, and the records of all [W] workers put together are the
    records of the identifiers, rearranged. *)
Theorem workers_yield_every_text self (W : nat) :
  1 ≤ W →
  Forall (λ identifier, is_Some (object_of self identifier))
    (DownloadingIterable.identifiers self) →
  ∃ yields : list (list (sample string)),
    Forall2 (λ w ys, ∀ fs, ∃ fs',
               DownloadingIterable.__iter__ self (Some (WorkerInfo w W)) fs
               = (Run ys None, fs'))
            (seq 0 W) yields
    ∧ concat yields
      ≡ₚ map text_record
           (omap (object_of self) (DownloadingIterable.identifiers self)).
Proof.
  intros HW Hall. destruct W as [|n]; [lia|].
  set (h := λ l, map text_record (omap (object_of self) l)).
  exists (map (λ w, h (Py.stride w (S n) (DownloadingIterable.identifiers self)))
            (seq 0 (S n))).
  split.
  - apply Forall2_fmap_r, Forall_Forall2_diag, Forall_forall.
    intros w _ fs. unfold DownloadingIterable.__iter__.
    cbn [DownloadingIterable.identifiers_shard id num_workers
         Py.slice_from_step].
    apply fetch_all_found. by apply Forall_stride.
  - rewrite (concat_map_distr _ h); [| done |].
    + unfold h. apply Permutation_map.
      rewrite shards_permutation. done.
    + intros a b. unfold h. by rewrite omap_app, map_app.
Qed.

End FetchShape.

(** ** parse_args as a whole *)

Section ParseArgsShape.
Implicit Types (tree : gmap string (list string)) (cl : cmdline)
  (parsed : Namespace).

(** [parse_args] returns a namespace exactly when both required options
    are given, [out_root] is not an existing directory, and a block size
    comes with a tokenizer; the namespace then holds the options given,
    the defaults for the others, and the boundary texts as strings. *)
Theorem parse_args_ok_iff tree cl parsed :
  parse_args tree cl = Ok parsed
  ↔ ∃ out inp,
      cl_out_root cl = Some out ∧ cl_in_root cl = Some inp
      ∧ tree !! out = None
      ∧ (cl_concat_tokens cl = None ∨ is_Some (cl_tokenizer cl))
      ∧ parsed
        = {| max_workers := default 64%Z (cl_max_workers cl);
             remote := cl_remote cl;
             out_root := out;
             in_root := inp;
             dataset_subset := default "small_full" (cl_dataset_subset cl);
             compression := default "zstd" (cl_compression cl);
             concat_tokens := cl_concat_tokens cl;
             tokenizer := cl_tokenizer cl;
             bos_text := Some (default "" (cl_bos_text cl));
             eos_text := Some (default "" (cl_eos_text cl));
             no_wrap := cl_no_wrap cl |}.
Proof.
  unfold parse_args, argparse.
  destruct (cl_out_root cl) as [out|], (cl_in_root cl) as [inp|];
    try (split; [done|by intros (? & ? & ? & ? & _)]).
  cbn [mbind result_bind]. split.
  - intros H. exists out, inp. split; [done|]. split; [done|].
    destruct (tree !! out) as [entries|] eqn:Ht.
    { by rewrite (check_out_root_existing tree _ entries) in H. }
    rewrite check_out_root_missing in H by done. cbn [mbind result_bind] in H.
    unfold check_concat_options in H. cbn in H.
    destruct (cl_concat_tokens cl), (cl_tokenizer cl),
      (cl_bos_text cl), (cl_eos_text cl); cbn in H; simplify_eq;
      (split; [done|]); (split; [by eauto|done]).
  - intros (out' & inp' & [= <-] & [= <-] & Ht & Htok & ->).
    rewrite check_out_root_missing by done. cbn [mbind result_bind].
    unfold check_concat_options. cbn.
    destruct Htok as [->|[name ->]];
      destruct (cl_concat_tokens cl), (cl_bos_text cl), (cl_eos_text cl);
      done.
Qed.


End ParseArgsShape.

(** ** The requests of a batch *)

Section HandlerDict.
Import MPTFTModelHandler.
Context {V : Type}.
Implicit Types (d acc kw params : list (string * V)) (k : string) (v : V).

Lemma dict_get_None k d : dict_get k d = None ↔ k ∉ d.*1.
Proof.
  induction d as [|[k' v'] d IH].
  - split; [intros _; apply not_elem_of_nil|done].
  - cbn [dict_get]. rewrite fmap_cons, not_elem_of_cons. cbn [fst].
    case_decide; [|rewrite IH]; [split; [done|tauto]|tauto].
Qed.

Lemma dict_get_Some_elem k v d : dict_get k d = Some v → k ∈ d.*1.
Proof.
  intros H. destruct (decide (k ∈ d.*1)) as [|Hn]; [done|].
  apply dict_get_None in Hn. congruence.
Qed.

Lemma dict_get_set_eq k v d : dict_get k (dict_set k v d) = Some v.
Proof.
  induction d as [|[k' v'] d IH]; simpl.
  - by rewrite decide_True.
  - case_decide; simpl; [by rewrite decide_True|]. by rewrite decide_False.
Qed.

Lemma dict_get_set_ne k k' v d :
  k' ≠ k → dict_get k' (dict_set k v d) = dict_get k' d.
Proof.
  intros Hne. induction d as [|[k0 v0] d IH]; simpl.
  - by rewrite decide_False.
  - case_decide; simpl; [subst; by rewrite !decide_False|].
    case_decide; [done|exact IH].
Qed.

Lemma dict_set_keys k v d :
  (dict_set k v d).*1 = d.*1 ++ (if decide (k ∈ d.*1) then [] else [k]).
Proof.
  induction d as [|[k' v'] d IH]; [done|].
  cbn [dict_set]. rewrite fmap_cons. cbn [fst].
  destruct (decide (k = k')) as [->|Hk].
  - rewrite decide_True by by left. by rewrite fmap_cons, app_nil_r.
  - rewrite fmap_cons, IH. cbn [fst app]. f_equal. f_equal.
    destruct (decide (k ∈ d.*1)).
    + by rewrite decide_True by by right.
    + rewrite decide_False; [done|]. rewrite not_elem_of_cons. done.
Qed.

Lemma dict_set_NoDup k v d : NoDup d.*1 → NoDup (dict_set k v d).*1.
Proof.
  intros Hnd. rewrite dict_set_keys. case_decide; [by rewrite app_nil_r|].
  apply NoDup_app. split; [done|]. split; [|apply NoDup_singleton].
  intros x Hx ->%list_elem_of_singleton. done.
Qed.

Lemma dict_set_same k v d : dict_get k d = Some v → dict_set k v d = d.
Proof.
  induction d as [|[k' v'] d IH]; simpl; [done|].
  destruct (decide (k = k')) as [->|Hne]; [by intros [= ->]|].
  intros Hg. by rewrite IH.
Qed.

Lemma dict_set_fresh k v d : k ∉ d.*1 → dict_set k v d = d ++ [(k, v)].
Proof.
  induction d as [|[k' v'] d IH]; simpl; [done|].
  rewrite not_elem_of_cons. intros [Hne Hk].
  rewrite decide_False by done. by rewrite IH.
Qed.

(** Assignments in turn, from a dictionary with distinct keys: its
    entries win over those already there. *)
Lemma set_all_get kw : ∀ acc k,
  NoDup kw.*1 →
  dict_get k (set_all acc kw)
  = match dict_get k kw with
    | Some v => Some v
    | None => dict_get k acc
    end.
Proof.
  unfold set_all.
  induction kw as [|[k0 v0] kw IH]; intros acc k Hnd; simpl; [done|].
  inversion Hnd as [|? ? Hk0 Hnd']; subst. rewrite IH by done.
  case_decide as Hk.
  - subst. rewrite (proj2 (dict_get_None k0 kw)) by done.
    apply dict_get_set_eq.
  - destruct (dict_get k kw); [done|]. by apply dict_get_set_ne.
Qed.

Lemma set_all_NoDup kw : ∀ acc, NoDup acc.*1 → NoDup (set_all acc kw).*1.
Proof.
  unfold set_all. induction kw as [|[k0 v0] kw IH]; intros acc Hnd; simpl;
    [done|]. apply IH. by apply dict_set_NoDup.
Qed.

Lemma set_all_keys_prefix kw : ∀ acc, acc.*1 `prefix_of` (set_all acc kw).*1.
Proof.
  unfold set_all. induction kw as [|[k0 v0] kw IH]; intros acc; simpl;
    [done|]. etrans; [|apply IH]. rewrite dict_set_keys. by eexists.
Qed.

Lemma set_all_same kw : ∀ acc,
  Forall (λ kv, dict_get kv.1 acc = Some kv.2) kw → set_all acc kw = acc.
Proof.
  unfold set_all. induction kw as [|[k0 v0] kw IH]; intros acc Hall; simpl;
    [done|]. inversion Hall as [|? ? H0 Hall']; subst. simpl in H0.
  rewrite (dict_set_same _ _ _ H0). by apply IH.
Qed.

Lemma set_all_fresh kw : ∀ acc,
  NoDup (acc ++ kw).*1 → set_all acc kw = acc ++ kw.
Proof.
  unfold set_all. induction kw as [|[k0 v0] kw IH]; intros acc Hnd; simpl.
  - by rewrite app_nil_r.
  - rewrite fmap_app, fmap_cons in Hnd. simpl in Hnd.
    rewrite dict_set_fresh.
    + rewrite IH; [by rewrite <- app_assoc|].
      by rewrite <- app_assoc, fmap_app.
    + apply NoDup_app in Hnd as (_ & Hdis & _). intros Hin.
      apply (Hdis _ Hin). by left.
Qed.

Lemma dict_get_in kw : ∀ k v,
  NoDup kw.*1 → (k, v) ∈ kw → dict_get k kw = Some v.
Proof.
  induction kw as [|[k0 v0] kw IH]; intros k v Hnd Hin; simpl.
  - by apply elem_of_nil in Hin.
  - inversion Hnd as [|? ? Hk0 Hnd']; subst.
    apply elem_of_cons in Hin as [[= -> ->]|Hin]; [by rewrite decide_True|].
    rewrite decide_False; [by apply IH|].
    intros ->. apply Hk0. apply list_elem_of_fmap. by exists (k0, v).
Qed.

End HandlerDict.

Section HandlerDefaults.
Import MPTFTModelHandler.
Context {V : Type}.
Variable default_of : string → V.
Implicit Types (k : string).

Lemma dict_get_tabulate (ks : list string) k :
  dict_get k (map (λ k, (k, default_of k)) ks)
  = if decide (k ∈ ks) then Some (default_of k) else None.
Proof.
  induction ks as [|k0 ks IH]; [done|]. cbn [map dict_get].
  destruct (decide (k = k0)) as [->|Hk].
  - by rewrite decide_True by by left.
  - rewrite IH. destruct (decide (k ∈ ks)).
    + by rewrite decide_True by by right.
    + rewrite decide_False; [done|]. rewrite not_elem_of_cons. done.
Qed.

Lemma dict_get_defaults k :
  dict_get k (DEFAULT_GENERATE_KWARGS default_of)
  = if decide (k ∈ DEFAULT_KEYS) then Some (default_of k) else None.
Proof. apply dict_get_tabulate. Qed.

Lemma defaults_keys :
  (DEFAULT_GENERATE_KWARGS default_of).*1 = DEFAULT_KEYS.
Proof. reflexivity. Qed.

Lemma defaults_NoDup : NoDup (DEFAULT_GENERATE_KWARGS default_of).*1.
Proof.
  rewrite defaults_keys. unfold DEFAULT_KEYS.
  apply (bool_decide_unpack _). by vm_compute.
Qed.

End HandlerDefaults.

Section HandlerBatch.
Import MPTFTModelHandler.
Context {V : Type}.
Variable default_of : string → V.
Variable ne : V → V → bool.
Implicit Types (d acc kw params : list (string * V)) (k : string) (v : V)
  (req : model_request (V := V)).

Lemma parse_request_kwargs req i :
  input req = Some i →
  _parse_model_request default_of req
  = Done (i, set_all (DEFAULT_GENERATE_KWARGS default_of)
               (default [] (parameters req))).
Proof. intros H. unfold _parse_model_request. by rewrite H. Qed.

(** Arguments that agree with those gathered so far are merged in. *)
Lemma merge_kwargs_agree kw : ∀ acc,
  NoDup kw.*1 → agree ne acc kw →
  merge_kwargs ne kw acc = Done (set_all acc kw).
Proof.
  unfold set_all.
  induction kw as [|[k0 v0] kw IH]; intros acc Hnd Hag; [done|].
  inversion Hnd as [|? ? Hk0 Hnd']; subst. cbn [merge_kwargs foldl fst snd].
  assert (match dict_get k0 acc with Some v => ne v v0 | None => false end
          = false) as ->.
  { destruct (dict_get k0 acc) as [v|] eqn:E; [|done].
    apply (Hag k0 v v0 E). simpl. by rewrite decide_True. }
  apply IH; [done|]. intros k v v' Hacc Hkw.
  assert (k ≠ k0) as Hne.
  { intros ->. apply Hk0. by eapply dict_get_Some_elem. }
  rewrite dict_get_set_ne in Hacc by done.
  apply (Hag k v v' Hacc). simpl. by rewrite decide_False.
Qed.

(** Arguments that do not are refused, by the name of the first of them
    that differs. *)
Lemma merge_kwargs_conflict kw : ∀ acc k v0 v,
  NoDup kw.*1 →
  dict_get k acc = Some v0 → dict_get k kw = Some v → ne v0 v = true →
  ∃ k', merge_kwargs ne kw acc
        = RuntimeError ("Request has conflicting values for kwarg " +:+ k').
Proof.
  induction kw as [|[k0 v0'] kw IH]; intros acc k v0 v Hnd Hacc Hkw Hne;
    [done|].
  inversion Hnd as [|? ? Hk0 Hnd']; subst. cbn [merge_kwargs].
  destruct (match dict_get k0 acc with Some v1 => ne v1 v0' | None => false end)
    eqn:E; [by exists k0|].
  simpl in Hkw. destruct (decide (k = k0)) as [->|Hk].
  - injection Hkw as ->. by rewrite Hacc, Hne in E.
  - apply (IH _ k v0 v); [done| |done|done].
    by rewrite dict_get_set_ne.
Qed.

Lemma kwargs_NoDup params :
  NoDup (set_all (DEFAULT_GENERATE_KWARGS default_of) params).*1.
Proof. apply set_all_NoDup, defaults_NoDup. Qed.

(** A request without an ['input'] is refused; one with it gets the
    defaults overridden by its parameters: under every key stands the
    request's value if it sets one, else the default if there is one,
    and the default keys keep their places in front. *)
Theorem parse_model_request_overrides req :
  (input req = None →
   _parse_model_request default_of req
   = RuntimeError (String quote ("input" +:+ String quote
                                   " must be provided to generate call")))
  ∧ (∀ i, input req = Some i →
     NoDup (default [] (parameters req)).*1 →
     ∃ kwargs,
       _parse_model_request default_of req = Done (i, kwargs)
       ∧ NoDup kwargs.*1
       ∧ DEFAULT_KEYS `prefix_of` kwargs.*1
       ∧ ∀ k, dict_get k kwargs
              = match dict_get k (default [] (parameters req)) with
                | Some v => Some v
                | None => if decide (k ∈ DEFAULT_KEYS)
                          then Some (default_of k) else None
                end).
Proof.
  clear ne. split.
  - intros H. unfold _parse_model_request. by rewrite H.
  - intros i Hi Hnd. eexists. split; [by apply parse_request_kwargs|].
    split; [apply kwargs_NoDup|]. split.
    + rewrite <- (defaults_keys default_of). apply set_all_keys_prefix.
    + intros k. rewrite set_all_get by done. by rewrite dict_get_defaults.
Qed.

Lemma parse_requests_from_inputs (reqs : list (model_request (V := V))) :
  ∀ inputs acc inputs' kwargs,
  parse_requests_from default_of ne reqs inputs acc = Done (inputs', kwargs) →
  ∃ more, inputs' = inputs ++ more
          ∧ Forall2 (λ req i, input req = Some i) reqs more.
Proof.
  induction reqs as [|req reqs IH]; intros inputs acc inputs' kwargs.
  - simpl. intros [= <- <-]. exists []. by rewrite app_nil_r.
  - cbn [parse_requests_from]. unfold _parse_model_request.
    destruct (input req) as [i|] eqn:Hi; [|done].
    destruct (merge_kwargs ne _ acc) as [acc'|]; [|done].
    intros (more & -> & Hall)%IH. exists (i :: more).
    rewrite <- app_assoc. split; [done|]. by constructor.
Qed.

(** When a batch of requests is accepted, the inputs returned are the
    ['input'] entries of the requests, one for one and in their order. *)
Theorem parse_model_requests_inputs (reqs : list (model_request (V := V)))
    inputs kwargs :
  _parse_model_requests default_of ne reqs = Done (inputs, kwargs) →
  Forall2 (λ req i, input req = Some i) reqs inputs.
Proof.
  unfold _parse_model_requests.
  by intros (more & -> & Hall)%parse_requests_from_inputs.
Qed.

(** Two requests with inputs go into one batch exactly when no argument
    stands under values that differ, defaults included; the arguments of
    the batch are then those of the first request overridden by those of
    the second. *)
Theorem parse_model_requests_pair req1 req2 i1 i2 kw1 kw2 :
  _parse_model_request default_of req1 = Done (i1, kw1) →
  _parse_model_request default_of req2 = Done (i2, kw2) →
  (agree ne kw1 kw2
   → _parse_model_requests default_of ne [req1; req2]
     = Done ([i1; i2], set_all kw1 kw2))
  ∧ (∀ r, _parse_model_requests default_of ne [req1; req2] = Done r
          → agree ne kw1 kw2).
Proof.
  unfold _parse_model_request.
  destruct (input req1) as [j1|] eqn:H1; [|done].
  destruct (input req2) as [j2|] eqn:H2; [|done].
  intros [= <- <-] [= <- <-].
  set (kw1 := foldl _ _ (default [] (parameters req1))).
  set (kw2 := foldl _ _ (default [] (parameters req2))).
  assert (NoDup kw1.*1) as Hnd1 by apply kwargs_NoDup.
  assert (NoDup kw2.*1) as Hnd2 by apply kwargs_NoDup.
  assert (merge_kwargs ne kw1 [] = Done kw1) as Hfirst.
  { rewrite merge_kwargs_agree; [|done|by intros k v0 v ?].
    f_equal. by apply (set_all_fresh kw1 []). }
  unfold _parse_model_requests. cbn [parse_requests_from].
  unfold _parse_model_request. rewrite H1, H2.
  fold kw1. fold kw2. rewrite Hfirst. cbn [app]. split.
  - intros Hag. by rewrite merge_kwargs_agree.
  - intros r Hr k v0 v Hk1 Hk2. destruct (ne v0 v) eqn:Hne; [|done].
    destruct (merge_kwargs_conflict kw2 kw1 k v0 v Hnd2 Hk1 Hk2 Hne)
      as [k' Hc].
    by rewrite Hc in Hr.
Qed.

Lemma parse_requests_from_replicate req i kw (n : nat) :
  (∀ v, ne v v = false) →
  _parse_model_request default_of req = Done (i, kw) →
  NoDup kw.*1 →
  ∀ inputs,
    parse_requests_from default_of ne (replicate n req) inputs kw
    = Done (inputs ++ replicate n i, kw).
Proof.
  intros Hirr Hreq Hnd. induction n as [|n IH]; intros inputs.
  - simpl. by rewrite app_nil_r.
  - cbn [replicate parse_requests_from]. rewrite Hreq.
    rewrite merge_kwargs_agree; [|done|].
    + rewrite set_all_same.
      * rewrite IH. by rewrite <- app_assoc.
      * apply Forall_forall. intros [k v] Hin. by apply dict_get_in.
    + intros k v0 v H0 H1. rewrite H0 in H1. injection H1 as ->. apply Hirr.
Qed.

(** When no value differs from itself, a request can be sent any number
    of times in one batch: the inputs are repeated and the arguments are
    those of the request. *)
Theorem parse_model_requests_repeated req i kw (n : nat) :
  (∀ v, ne v v = false) →
  _parse_model_request default_of req = Done (i, kw) →
  _parse_model_requests default_of ne (replicate (S n) req)
  = Done (replicate (S n) i, kw).
Proof.
  intros Hirr Hreq.
  assert (NoDup kw.*1) as Hnd.
  { unfold _parse_model_request in Hreq.
    destruct (input req); [|done]. injection Hreq as _ <-.
    apply kwargs_NoDup. }
  unfold _parse_model_requests. cbn [replicate parse_requests_from].
  rewrite Hreq.
  rewrite merge_kwargs_agree; [|done|by intros k v0 v ?].
  rewrite (set_all_fresh kw []) by done. cbn [app].
  by rewrite (parse_requests_from_replicate req i kw n Hirr Hreq Hnd).
Qed.

End HandlerBatch.

(** ** The further properties at concrete inputs *)

Lemma workers_yield_every_text_witness :
  ∃ yields : list (list (sample string)),
    Forall2 (λ w ys, ∀ fs, ∃ fs',
               DownloadingIterable.__iter__ demo_iterable
                 (Some (WorkerInfo w 2)) fs
               = (Run ys None, fs'))
            (seq 0 2) yields
    ∧ concat yields
      ≡ₚ map text_record ["apple 2020"; "microsoft 2021"; "apple 2019"].
Proof.
  apply (workers_yield_every_text demo_iterable 2); [lia|].
  repeat constructor; vm_compute; by eexists.
Defined.


Lemma unique_identifiers_permutation_witness :
  ∃ ids',
    unique_identifiers (rev demo_filings) = Ok ids'
    ∧ ["d1|||AAPL|||2020-10-30"; "d2|||MSFT|||2021-07-29"] ≡ₚ ids'.
Proof.
  apply (unique_identifiers_permutation demo_filings (rev demo_filings)).
  - apply Permutation_rev.
  - reflexivity.
Defined.

Lemma unique_identifiers_stable_witness :
  ["d1|||AAPL|||2020-10-30"]
  `prefix_of` ["d1|||AAPL|||2020-10-30"; "d2|||MSFT|||2021-07-29"].
Proof.
  apply (unique_identifiers_stable (take 1 demo_filings) (drop 1 demo_filings));
    reflexivity.
Defined.

Lemma unique_identifiers_distinct_witness :
  ["d1|||AAPL|||2020-10-30"; "d2|||MSFT|||2021-07-29"]
  = omap identifier_of (take 2 demo_filings).
Proof.
  apply (unique_identifiers_distinct (take 2 demo_filings)); [|reflexivity].
  apply (bool_decide_unpack _). by vm_compute.
Defined.

Lemma unique_identifiers_first_ticker_witness :
  unique_identifiers [Example "d1" ["AAPL"; "APC"] "2020-10-30" None]
  = unique_identifiers [Example "d1" ["AAPL"] "2020-10-30" (Some "x")].
Proof.
  apply unique_identifiers_first_ticker. by repeat constructor.
Defined.

Lemma generate_samples_limit_prefix_witness :
  (Z.of_nat (length (yielded (generate_samples
                                [[("tokens", ["a"; "b"; "c"])]; []]
                                (Some 2%Z)))) ≤ 2)%Z.
Proof.
  by apply (generate_samples_limit_prefix [[("tokens", ["a"; "b"; "c"])]; []] 2).
Defined.

Lemma generate_samples_first_column_witness :
  generate_samples [[("tokens", ["a"; "b"]); ("ids", ["0"; "1"; "2"])]] None
  = Run [[("tokens", "a"); ("ids", "0")]; [("tokens", "b"); ("ids", "1")]] None.
Proof.
  apply (generate_samples_first_column
           [[("tokens", ["a"; "b"]); ("ids", ["0"; "1"; "2"])]]).
  repeat constructor; simpl; (done || lia).
Defined.

Lemma generate_samples_empty_batch_witness :
  generate_samples [[("tokens", ["a"; "b"])]; []; [("tokens", ["c"])]]
    (Some 2%Z)
  = Run [[("tokens", "a")]; [("tokens", "b")]]
      (Some (IndexError "list index out of range")).
Proof.
  destruct (generate_samples_empty_batch [[("tokens", ["a"; "b"])]]
              [[("tokens", ["c"])]]) as [_ H].
  - repeat constructor; simpl; (done || lia).
  - apply (H 2%Z). lia.
Defined.

Lemma generate_samples_short_column_witness :
  generate_samples [[("tokens", ["a"; "b"; "c"]); ("ids", ["0"])]] None
  = Run [[("tokens", "a"); ("ids", "0")]]
      (Some (IndexError "list index out of range")).
Proof.
  apply (generate_samples_short_column []
           [("tokens", ["a"; "b"; "c"]); ("ids", ["0"])] [] 1).
  - constructor.
  - repeat constructor; simpl; lia.
  - apply Exists_cons_tl, Exists_cons_hd. reflexivity.
  - simpl. lia.
Defined.

Lemma parse_args_ok_iff_witness :
  parse_args ∅ (concat_cmdline (Some "gpt2"))
  = Ok (MkNamespace 64 None "out" "s3://bucket/data" "small_full" "zstd"
          (Some 2048%Z) (Some "gpt2") (Some "") (Some "<|endoftext|>") false).
Proof.
  apply parse_args_ok_iff. exists "out", "s3://bucket/data".
  repeat split; try reflexivity. right. by eexists.
Defined.


Lemma parse_model_request_overrides_witness :
  ∃ kwargs,
    MPTFTModelHandler._parse_model_request demo_default_of
      (MPTFTModelHandler.Request (Some "Who?")
         (Some [("top_k", 5%Z); ("max_length", 64%Z)]))
    = MPTFTModelHandler.Done ("Who?", kwargs)
    ∧ MPTFTModelHandler.dict_get "top_k" kwargs = Some 5%Z
    ∧ MPTFTModelHandler.dict_get "top_p" kwargs = Some 0%Z.
Proof.
  destruct (parse_model_request_overrides demo_default_of
              (MPTFTModelHandler.Request (Some "Who?")
                 (Some [("top_k", 5%Z); ("max_length", 64%Z)])))
    as [_ H].
  destruct (H "Who?") as (kwargs & Hreq & _ & _ & Hget); [reflexivity| |].
  - apply (bool_decide_unpack _). by vm_compute.
  - exists kwargs. split; [exact Hreq|]. by rewrite !Hget.
Defined.

Lemma parse_model_requests_inputs_witness :
  Forall2 (λ req i, MPTFTModelHandler.input req = Some i)
    [MPTFTModelHandler.Request (Some "a") (Some [("top_k", 5%Z)]);
     MPTFTModelHandler.Request (Some "b") (Some [("top_k", 5%Z)])]
    ["a"; "b"].
Proof.
  eapply (parse_model_requests_inputs demo_default_of demo_ne). reflexivity.
Defined.

Lemma parse_model_requests_pair_witness :
  ∃ kwargs,
    MPTFTModelHandler._parse_model_requests demo_default_of demo_ne
      [MPTFTModelHandler.Request (Some "a") (Some [("top_k", 5%Z)]);
       MPTFTModelHandler.Request (Some "b") (Some [("top_k", 5%Z)])]
    = MPTFTModelHandler.Done (["a"; "b"], kwargs).
Proof.
  eexists.
  eapply (parse_model_requests_pair demo_default_of demo_ne); [reflexivity..|].
  intros k v0 v H0 H1. simpl in H0, H1. rewrite H0 in H1.
  injection H1 as ->. unfold demo_ne. by rewrite Z.eqb_refl.
Defined.

Lemma parse_model_requests_repeated_witness :
  ∃ kw,
    MPTFTModelHandler._parse_model_requests demo_default_of demo_ne
      (replicate 3 (MPTFTModelHandler.Request (Some "a")
                      (Some [("top_k", 5%Z)])))
    = MPTFTModelHandler.Done (["a"; "a"; "a"], kw).
Proof.
  eexists.
  apply (parse_model_requests_repeated demo_default_of demo_ne
           (MPTFTModelHandler.Request (Some "a") (Some [("top_k", 5%Z)]))
           "a" _ 2).
  - intros v. unfold demo_ne. by rewrite Z.eqb_refl.
  - reflexivity.
Defined.
